(** * Quality moderation status: a shallow embedding of
      [backend/app/quality_moderation.py]

    The guideline catalog, the per-app status computation
    ([get_quality_moderation_status_for_appid]) and the verdict upsert
    handler are embedded as Rocq functions.  Reading the wall clock
    ([datetime.datetime.now()]) and raising an exception are the two
    effects of the Python code; both are kept explicit in a small
    state-and-error monad. *)

From Stdlib Require Import String List Bool NArith Arith Lia.
From Stdlib Require Import Permutation.
Import ListNotations.

Local Open Scope string_scope.
Local Open Scope list_scope.
Local Open Scope N_scope.

(** ** Naive datetimes

    A naive [datetime.datetime] is a point on a linear time line that
    starts at [datetime.datetime.min] (0001-01-01T00:00:00).  It is
    represented by the number of microseconds elapsed since that
    instant, so that Python's comparison of two datetimes is the
    comparison of two numbers and [datetime.min] is below every value. *)

Definition datetime := N.

Definition datetime_min : datetime := 0.

Definition is_leap (year : N) : bool :=
  ((year mod 4 =? 0) && negb (year mod 100 =? 0)) || (year mod 400 =? 0).

Definition days_before_year (year : N) : N :=
  let y := year - 1 in y * 365 + y / 4 - y / 100 + y / 400.

Definition days_in_month (year month : N) : N :=
  if month =? 2 then (if is_leap year then 29 else 28)
  else if (month =? 4) || (month =? 6) || (month =? 9) || (month =? 11)
       then 30 else 31.

Definition days_before_month (year month : N) : N :=
  fold_left (fun acc m => acc + days_in_month year m)
            (map N.of_nat (seq 1 (N.to_nat month - 1))) 0.

(** [datetime.datetime(year, month, day)]: midnight of a calendar day. *)
Definition datetime_of_date (year month day : N) : datetime :=
  (days_before_year year + days_before_month year month + day - 1)
  * 86400 * 1000000.

(** ** The guideline catalog *)

Module Guideline.
Record t := mk {
  id : string;
  url : string;
  needed_to_pass_since : datetime;
  read_only : bool
}.
End Guideline.

Module GuidelineCategory.
Record t := mk {
  id : string;
  guidelines : list Guideline.t
}.
End GuidelineCategory.

Definition docs (anchor : string) : string :=
  ("https://docs.flathub.org/docs/for-app-authors/appdata-guidelines/quality-guidelines/#"
   ++ anchor)%string.

Definition GUIDELINES : list GuidelineCategory.t :=
  let d0901 := datetime_of_date 2023 9 1 in
  let d0930 := datetime_of_date 2023 9 30 in
  let g i a d := Guideline.mk i (docs a) d false in
  let ro i a d := Guideline.mk i (docs a) d true in
  [ GuidelineCategory.mk "general"
      [ g "general-no-trademark-violations" "no-trademark-violations" d0901 ];
    GuidelineCategory.mk "app-icon"
      [ g "app-icon-footprint" "reasonable-footprint" d0901;
        g "app-icon-contrast" "good-contrast" d0901;
        g "app-icon-detail" "not-too-much-or-too-little-detail" d0901;
        g "app-icon-no-baked-in-shadows" "no-baked-in-shadows" d0901;
        g "app-icon-in-line-with-contemporary-styles"
          "in-line-with-contemporary-styles" d0901 ];
    GuidelineCategory.mk "app-name"
      [ ro "app-name-not-too-long" "not-too-long" d0901;
        g "app-name-just-the-name" "just-the-name" d0901;
        g "app-no-weird-formatting" "no-weird-formatting" d0901 ];
    GuidelineCategory.mk "app-summary"
      [ ro "app-summary-not-too-long" "not-too-long-1" d0901;
        g "app-summary-not-technical" "not-technical" d0901;
        g "app-summary-no-weird-formatting" "no-weird-formatting-1" d0901;
        g "app-summary-dont-repeat-app-name" "dont-repeat-the-name" d0901;
        g "app-summary-dont-start-with-an-article"
          "dont-start-with-an-article" d0901 ];
    GuidelineCategory.mk "screenshots"
      [ ro "screenshots-at-least-one-screenshot" "at-least-one-screenshot" d0930;
        g "screenshots-tag-screenshots-with-correct-language"
          "tag-screenshots-with-correct-language" d0930;
        g "screenshots-just-the-app-window" "just-the-app-window" d0930;
        g "screenshots-take-screenshots-on-linux" "take-screenshots-on-linux" d0930;
        g "screenshots-default-settings" "default-settings" d0930;
        g "screenshots-include-window-shadow-and-rounded-corners"
          "include-window-shadow-and-rounded-corners" d0930;
        g "screenshots-reasonable-window-size" "reasonable-window-size" d0930;
        g "screenshots-good-content" "good-content" d0930;
        g "screenshots-up-to-date" "up-to-date" d0930 ] ].

(** ** Stored verdicts

    A row of the [QualityModeration] table, as the code of this file
    reads it: [guideline_id], [passed] and [updated_at] are the
    attributes accessed on a mark; [app_id] and [updated_by] are the
    remaining arguments of [upsert]. *)

Module QualityModeration.
Record t := mk {
  app_id : string;
  guideline_id : string;
  passed : bool;
  updated_by : N;
  updated_at : datetime
}.
End QualityModeration.

(** The request body of the upsert route. *)
Module UpsertQualityModeration.
Record t := mk {
  guideline_id : string;
  passed : bool
}.
End UpsertQualityModeration.

(** ** Effects: the wall clock and exceptions

    [datetime.datetime.now()] is read afresh at every call.  A [Clock]
    gives the value of the k-th reading; a computation threads the
    number of readings made so far.  [Raise] is a Python exception that
    leaves the function. *)

Inductive exn : Type :=
| ValueError.   (* max() of an empty sequence *)

Inductive result (A : Type) : Type :=
| Ok (a : A)
| Raise (e : exn).
Arguments Ok {A} a.
Arguments Raise {A} e.

Definition Clock := nat -> datetime.

Definition M (A : Type) : Type := Clock -> nat -> result (A * nat).

Definition ret {A} (a : A) : M A := fun _ k => Ok (a, k).

Definition bind {A B} (m : M A) (f : A -> M B) : M B :=
  fun clk k =>
    match m clk k with
    | Ok (a, k') => f a clk k'
    | Raise e => Raise e
    end.

Definition lift {A} (r : result A) : M A :=
  fun _ k => match r with Ok a => Ok (a, k) | Raise e => Raise e end.

(** [datetime.datetime.now()] *)
Definition now : M datetime := fun clk k => Ok (clk k, S k).

Notation "x <- m ;; f" := (bind m (fun x => f))
  (at level 61, m at next level, right associativity).

(** The value of a computation, without the final clock position. *)
Definition eval {A} (m : M A) (clk : Clock) (k : nat) : result A :=
  match m clk k with
  | Ok (a, _) => Ok a
  | Raise e => Raise e
  end.

(** A clock that stands still: every reading is [t]. *)
Definition frozen (t : datetime) : Clock := fun _ => t.

(** [for x in l: s = body(s, x)] *)
Fixpoint for_each {A S} (body : S -> A -> M S) (l : list A) (s : S) : M S :=
  match l with
  | [] => ret s
  | x :: l' => s' <- body s x ;; for_each body l' s'
  end.

(** [[item for item in l if cond(item)]] with an effectful condition. *)
Fixpoint comprehension {A} (cond : A -> M bool) (l : list A) : M (list A) :=
  match l with
  | [] => ret []
  | x :: l' =>
      b <- cond x ;;
      rest <- comprehension cond l' ;;
      ret (if b then x :: rest else rest)
  end.

(** [max(l)]: the first maximal element; [ValueError] on an empty list. *)
Definition py_max (l : list datetime) : result datetime :=
  match l with
  | [] => Raise ValueError
  | x :: l' => Ok (fold_left (fun best y => if best <? y then y else best) l' x)
  end.

(** ** The status computation *)

(** An entry of the local list [checks]: a dict with five fixed keys.
    [passed] and [updated_at] are [None] when no mark matches. *)
Module Check.
Record t := mk {
  category : string;
  guideline : string;
  needed_to_pass_since : datetime;
  passed : option bool;
  updated_at : option datetime
}.
End Check.

(** The dict returned by [get_quality_moderation_status_for_appid]. *)
Module Report.
Record t := mk {
  passes : bool;
  unrated : nat;
  passed : nat;
  not_passed : nat;
  last_updated : datetime
}.
End Report.

(** [next((mark for mark in marks if mark.guideline_id == gid), None)] *)
Definition first_match (marks : list QualityModeration.t) (gid : string)
  : option QualityModeration.t :=
  find (fun mark => String.eqb (QualityModeration.guideline_id mark) gid) marks.

(** The variables the two nested loops update. *)
Record loop_state := mk_loop_state {
  checks : list Check.t;
  unrated : nat
}.

Definition mk_check (category : string) (guideline : Guideline.t)
    (firstMatch : option QualityModeration.t) : Check.t :=
  {| Check.category := category;
     Check.guideline := Guideline.id guideline;
     Check.needed_to_pass_since := Guideline.needed_to_pass_since guideline;
     Check.passed := option_map QualityModeration.passed firstMatch;
     Check.updated_at := option_map QualityModeration.updated_at firstMatch |}.

(** Body of the inner loop (lines 269-287). *)
Definition guideline_body (marks : list QualityModeration.t) (category : string)
    (st : loop_state) (guideline : Guideline.t) : M loop_state :=
  t <- now ;;
  if t <? Guideline.needed_to_pass_since guideline then
    ret st                                            (* continue *)
  else
    let firstMatch := first_match marks (Guideline.id guideline) in
    ret {| checks := checks st ++ [mk_check category guideline firstMatch];
           unrated := match firstMatch with
                      | None => S (unrated st)
                      | Some _ => unrated st
                      end |}.

Definition category_body (marks : list QualityModeration.t)
    (st : loop_state) (category : GuidelineCategory.t) : M loop_state :=
  for_each (guideline_body marks (GuidelineCategory.id category))
           (GuidelineCategory.guidelines category) st.

(** Lines 263-287: [unrated = 0], [checks = []] and the two loops. *)
Definition collect_checks (catalog : list GuidelineCategory.t)
    (marks : list QualityModeration.t) : M loop_state :=
  for_each (category_body marks) catalog {| checks := []; unrated := 0 |}.

(** [item["passed"] and item["needed_to_pass_since"] < datetime.now()]:
    the clock is read only when the left operand is truthy. *)
Definition passed_cond (item : Check.t) : M bool :=
  match Check.passed item with
  | Some true => t <- now ;; ret (Check.needed_to_pass_since item <? t)
  | _ => ret false
  end.

(** [item["passed"] is False and item["needed_to_pass_since"] < datetime.now()] *)
Definition not_passed_cond (item : Check.t) : M bool :=
  match Check.passed item with
  | Some false => t <- now ;; ret (Check.needed_to_pass_since item <? t)
  | _ => ret false
  end.

Definition passed_items (checks : list Check.t) : M (list Check.t) :=
  comprehension passed_cond checks.

Definition not_passed_items (checks : list Check.t) : M (list Check.t) :=
  comprehension not_passed_cond checks.

(** The inner function [last_updated]; it is applied to the marks. *)
Definition last_updated (checks : list QualityModeration.t) : result datetime :=
  py_max (map QualityModeration.updated_at checks ++ [datetime_min]).

(** Lines 289-314, from the state the loops leave behind. *)
Definition summarise (marks : list QualityModeration.t) (st : loop_state)
  : M Report.t :=
  p <- passed_items (checks st) ;;
  let passed := length p in
  np <- not_passed_items (checks st) ;;
  let not_passed := length np in
  lu <- lift (last_updated marks) ;;
  ret {| Report.passes := Nat.eqb (unrated st + not_passed) 0;
         Report.unrated := unrated st;
         Report.passed := passed;
         Report.not_passed := not_passed;
         Report.last_updated := lu |}.

(** The body of [get_quality_moderation_status_for_appid], over the
    catalog it iterates and the marks it has fetched. *)
Definition quality_moderation_status (catalog : list GuidelineCategory.t)
    (marks : list QualityModeration.t) : M Report.t :=
  st <- collect_checks catalog marks ;;
  summarise marks st.

(** ** The verdict store *)

(** Modelled from the spec: [models.QualityModeration.by_appid] is not
    part of this file.  "find_by_app(app_id) -> sequence of Verdict":
    the rows of the table whose app id is [app_id], in table order. *)
Definition by_appid (db : list QualityModeration.t) (app_id : string)
  : list QualityModeration.t :=
  filter (fun row => String.eqb (QualityModeration.app_id row) app_id) db.

(** Modelled from the spec: [models.QualityModeration.upsert] is not
    part of this file.  "If no row exists for (app_id, guideline_id),
    create one with updated_at = current time.  If a row exists,
    overwrite passed, moderator_id, and updated_at unconditionally." *)
Fixpoint upsert_at (db : list QualityModeration.t) (app_id guideline_id : string)
    (passed : bool) (moderator_id : N) (t : datetime) : list QualityModeration.t :=
  match db with
  | [] => [QualityModeration.mk app_id guideline_id passed moderator_id t]
  | row :: db' =>
      if String.eqb (QualityModeration.app_id row) app_id
         && String.eqb (QualityModeration.guideline_id row) guideline_id
      then QualityModeration.mk app_id guideline_id passed moderator_id t :: db'
      else row :: upsert_at db' app_id guideline_id passed moderator_id t
  end.

Definition upsert (db : list QualityModeration.t) (app_id guideline_id : string)
    (passed : bool) (moderator_id : N) : M (list QualityModeration.t) :=
  t <- now ;;
  ret (upsert_at db app_id guideline_id passed moderator_id t).

(** ** Route handlers *)

Definition get_quality_moderation_status_for_appid
    (db : list QualityModeration.t) (app_id : string) : M Report.t :=
  let marks := by_appid db app_id in
  quality_moderation_status GUIDELINES marks.

(** [POST /{app_id}], once the path and the moderator dependency are
    resolved: [moderator] is [moderator.user.id]. *)
Definition set_quality_moderation_for_app (db : list QualityModeration.t)
    (body : UpsertQualityModeration.t) (app_id : string) (moderator : N)
  : M (list QualityModeration.t) :=
  upsert db app_id (UpsertQualityModeration.guideline_id body)
         (UpsertQualityModeration.passed body) moderator.

(** ** Vocabulary of the specification

    The pure notions the properties below are stated with. *)

(** [m], started at clock position [k], returns [a]. *)
Definition returns {A} (m : M A) (clk : Clock) (k : nat) (a : A) : Prop :=
  exists k', m clk k = Ok (a, k').

(** The catalog as the ordered sequence of (category id, guideline)
    pairs the two loops visit. *)
Definition flatten (catalog : list GuidelineCategory.t)
  : list (string * Guideline.t) :=
  flat_map (fun c => map (pair (GuidelineCategory.id c))
                         (GuidelineCategory.guidelines c)) catalog.

(** A guideline is active at [t] when its activation time is not
    strictly after [t]. *)
Definition active (t : datetime) (g : Guideline.t) : bool :=
  negb (t <? Guideline.needed_to_pass_since g).

Definition active_guidelines (t : datetime) (catalog : list GuidelineCategory.t)
  : list (string * Guideline.t) :=
  filter (fun cg => active t (snd cg)) (flatten catalog).

Definition check_of (marks : list QualityModeration.t)
    (cg : string * Guideline.t) : Check.t :=
  mk_check (fst cg) (snd cg) (first_match marks (Guideline.id (snd cg))).

(** Some verdict of [marks] is for guideline [gid]. *)
Definition has_verdict (marks : list QualityModeration.t) (gid : string) : bool :=
  existsb (fun m => String.eqb (QualityModeration.guideline_id m) gid) marks.

(** Some verdict of [marks] is for guideline [gid] and says [b]. *)
Definition has_verdict_saying (marks : list QualityModeration.t) (gid : string)
    (b : bool) : bool :=
  existsb (fun m => String.eqb (QualityModeration.guideline_id m) gid
                    && Bool.eqb (QualityModeration.passed m) b) marks.

(** The contributions of a check record to the three counters, in the
    words of the specification. *)
Definition counts_unrated (marks : list QualityModeration.t) (c : Check.t) : bool :=
  negb (has_verdict marks (Check.guideline c)).

Definition counts_passed (marks : list QualityModeration.t) (t : datetime)
    (c : Check.t) : bool :=
  has_verdict_saying marks (Check.guideline c) true
  && (Check.needed_to_pass_since c <? t).

Definition counts_not_passed (marks : list QualityModeration.t) (t : datetime)
    (c : Check.t) : bool :=
  has_verdict_saying marks (Check.guideline c) false
  && (Check.needed_to_pass_since c <? t).

(** The store keeps at most one row per (app id, guideline id); on the
    marks of one app: no guideline id occurs twice. *)
Definition one_row_per_guideline (marks : list QualityModeration.t) : Prop :=
  NoDup (map QualityModeration.guideline_id marks).

(** What the loops maintain: a check record is built from the first
    mark that matches its guideline id. *)
Definition built_from (marks : list QualityModeration.t) (c : Check.t) : Prop :=
  Check.passed c
    = option_map QualityModeration.passed (first_match marks (Check.guideline c))
  /\ Check.updated_at c
    = option_map QualityModeration.updated_at (first_match marks (Check.guideline c)).

(** The tallies over a clock that stands still. *)
Definition tally_passed (t : datetime) (c : Check.t) : bool :=
  match Check.passed c with
  | Some true => Check.needed_to_pass_since c <? t
  | _ => false
  end.

Definition tally_not_passed (t : datetime) (c : Check.t) : bool :=
  match Check.passed c with
  | Some false => Check.needed_to_pass_since c <? t
  | _ => false
  end.

Definition is_unrated (c : Check.t) : bool :=
  match Check.passed c with None => true | Some _ => false end.

(** The state of the loops after visiting the active pairs [l]. *)
Definition extend (marks : list QualityModeration.t) (st : loop_state)
    (l : list (string * Guideline.t)) : loop_state :=
  {| checks := checks st ++ map (check_of marks) l;
     unrated := unrated st
                + List.length (filter is_unrated (map (check_of marks) l)) |}.

(** What the loops keep true of their state. *)
Definition loop_inv (marks : list QualityModeration.t) (st : loop_state) : Prop :=
  Forall (built_from marks) (checks st)
  /\ unrated st = List.length (filter is_unrated (checks st)).

(** A check record stems from a pair of the catalog that some clock
    reading found active. *)
Definition from_catalog (catalog : list GuidelineCategory.t)
    (marks : list QualityModeration.t) (clk : Clock) (c : Check.t) : Prop :=
  exists cg j, In cg (flatten catalog) /\ c = check_of marks cg
               /\ Guideline.needed_to_pass_since (snd cg) <= clk j.

(** The returned dict, from the loop state and the two tallies. *)
Definition report_of (st : loop_state) (passed not_passed : nat)
    (lu : datetime) : Report.t :=
  {| Report.passes := Nat.eqb (unrated st + not_passed) 0;
     Report.unrated := unrated st;
     Report.passed := passed;
     Report.not_passed := not_passed;
     Report.last_updated := lu |}.

(** A rated check whose activation time is exactly [t]. *)
Definition tied (t : datetime) (c : Check.t) : bool :=
  match Check.passed c with
  | Some _ => Check.needed_to_pass_since c =? t
  | None => false
  end.

(** ** Fixtures: the scenarios of the specification *)

Definition guideline_G : Guideline.t :=
  Guideline.mk "G" (docs "g") (datetime_of_date 2023 9 1) false.

Definition guideline_H : Guideline.t :=
  Guideline.mk "H" (docs "h") (datetime_of_date 2099 1 1) false.

Definition new_year_2024 : datetime := datetime_of_date 2024 1 1.

Definition mark_for (gid : string) (passed : bool) (at_ : datetime)
  : QualityModeration.t :=
  QualityModeration.mk "org.gnome.Glade" gid passed 7 at_.

(** A clock that advances by one microsecond at every reading. *)
Definition ticking (start : datetime) : Clock := fun k => start + N.of_nat k.

(** ** The moderator gate

    [LoginStatusDep] comes from the login module; the gate reads
    [login.user] (absent when nobody is logged in),
    [login.state.logged_in()] and [login.user.is_quality_moderator],
    and the upsert route reads [moderator.user.id]. *)

Module User.
Record t := mk {
  id : N;
  is_quality_moderator : bool
}.
End User.

Module LoginStatus.
Record t := mk {
  user : option User.t;
  logged_in : bool
}.
End LoginStatus.

Module HTTPException.
Record t := mk {
  status_code : N;
  detail : string
}.
End HTTPException.

(** Lines 192-198; [inl] is the raised [HTTPException]. *)
Definition quality_moderator_only (login : LoginStatus.t)
  : HTTPException.t + LoginStatus.t :=
  match LoginStatus.user login with
  | None => inl (HTTPException.mk 401 "not_logged_in")
  | Some u =>
      if negb (LoginStatus.logged_in login) then
        inl (HTTPException.mk 401 "not_logged_in")
      else if negb (User.is_quality_moderator u) then
        inl (HTTPException.mk 403 "not_quality_moderator")
      else inr login
  end.

(** ** The status of all apps *)

(** [[f(x) for x in l]] with an effectful element expression. *)
Fixpoint comprehension_map {A B} (f : A -> M B) (l : list A) : M (list B) :=
  match l with
  | [] => ret []
  | x :: l' =>
      y <- f x ;;
      rest <- comprehension_map f l' ;;
      ret (y :: rest)
  end.

(** Lines 201-213, the list under ["apps"]; [appids] is what
    [get_all_appids_for_frontend()] returned.  An entry pairs ["id"]
    with ["quality-moderation-status"]. *)
Definition get_quality_moderation_status (db : list QualityModeration.t)
    (appids : list string) : M (list (string * Report.t)) :=
  comprehension_map
    (fun appId =>
       status <- get_quality_moderation_status_for_appid db appId ;;
       ret (appId, status))
    appids.

(** ** The editing view of one app *)

(** A Python dict with string keys: entries in insertion order;
    storing under a key that is present replaces the value in place. *)
Fixpoint dict_set {V} (d : list (string * V)) (k : string) (v : V)
  : list (string * V) :=
  match d with
  | [] => [(k, v)]
  | (k', v') :: d' =>
      if String.eqb k' k then (k', v) :: d' else (k', v') :: dict_set d' k v
  end.

Fixpoint dict_get {V} (d : list (string * V)) (k : string) : option V :=
  match d with
  | [] => None
  | (k', v') :: d' => if String.eqb k' k then Some v' else dict_get d' k
  end.

(** [{item.guideline_id: item for item in items}] *)
Definition marks_by_guideline (items : list QualityModeration.t)
  : list (string * QualityModeration.t) :=
  fold_left (fun d item => dict_set d (QualityModeration.guideline_id item) item)
            items [].

Module ForApp.
Record t := mk {
  categories : list GuidelineCategory.t;
  marks : list (string * QualityModeration.t)
}.
End ForApp.

(** Lines 216-230. *)
Definition get_quality_moderation_for_app (db : list QualityModeration.t)
    (app_id : string) : ForApp.t :=
  let items := by_appid db app_id in
  {| ForApp.categories := GUIDELINES;
     ForApp.marks := marks_by_guideline items |}.

(** ** Further vocabulary *)

(** The pairs the loops record when they start at clock position [k]:
    the i-th pair is kept when its activation time is not after the
    reading at position [k + i]. *)
Fixpoint active_at (clk : Clock) (k : nat) (l : list (string * Guideline.t))
  : list (string * Guideline.t) :=
  match l with
  | [] => []
  | cg :: l' =>
      if clk k <? Guideline.needed_to_pass_since (snd cg)
      then active_at clk (S k) l'
      else cg :: active_at clk (S k) l'
  end.

(** The inner loop body on a (category id, guideline) pair. *)
Definition pair_body (marks : list QualityModeration.t) (st : loop_state)
    (cg : string * Guideline.t) : M loop_state :=
  guideline_body marks (fst cg) st (snd cg).

(** The last mark of [items] for guideline [gid]. *)
Definition last_match (items : list QualityModeration.t) (gid : string)
  : option QualityModeration.t :=
  first_match (rev items) gid.

(** A record is rated when a verdict was found for it. *)
Definition is_rated (c : Check.t) : bool := negb (is_unrated c).

Definition says (b : bool) (c : Check.t) : bool :=
  match Check.passed c with
  | Some b' => Bool.eqb b' b
  | None => false
  end.

(** Two records that differ at most in their category. *)
Definition same_verdict (c c' : Check.t) : Prop :=
  Check.guideline c = Check.guideline c'
  /\ Check.needed_to_pass_since c = Check.needed_to_pass_since c'
  /\ Check.passed c = Check.passed c'
  /\ Check.updated_at c = Check.updated_at c'.

(** The table after a sequence of upsert requests
    (app id, guideline id, passed, moderator), started at position [k]. *)
Fixpoint replay (db : list QualityModeration.t)
    (requests : list (string * string * bool * N)) : M (list QualityModeration.t) :=
  match requests with
  | [] => ret db
  | (app_id, gid, passed, moderator) :: rest =>
      db' <- set_quality_moderation_for_app
               db (UpsertQualityModeration.mk gid passed) app_id moderator ;;
      replay db' rest
  end.

(** At most one row per (app id, guideline id) in the whole table. *)
Definition one_row_per_pair (db : list QualityModeration.t) : Prop :=
  NoDup (map (fun row => (QualityModeration.app_id row,
                          QualityModeration.guideline_id row)) db).

(** ** Sanity checks on concrete inputs *)

Example date_2023_09_01 :
  datetime_of_date 2023 9 1 = (738764 - 1) * 86400 * 1000000.
Proof. vm_compute. reflexivity. Qed.

Example date_min : datetime_of_date 1 1 1 = datetime_min.
Proof. vm_compute. reflexivity. Qed.

(** ** The monad *)

Lemma returns_eval {A} (m : M A) clk k a :
  returns m clk k a -> eval m clk k = Ok a.
Proof. intros [k' H]. unfold eval. now rewrite H. Qed.

Lemma eval_returns {A} (m : M A) clk k a :
  eval m clk k = Ok a -> returns m clk k a.
Proof.
  unfold eval, returns. destruct (m clk k) as [[a' k']|e]; intros H.
  - inversion H; subst. now exists k'.
  - discriminate.
Qed.

Lemma returns_ret {A} (a : A) clk k : returns (ret a) clk k a.
Proof. now exists k. Qed.

Lemma returns_now clk k : returns now clk k (clk k).
Proof. now exists (S k). Qed.

Lemma returns_bind {A B} (m : M A) (f : A -> M B) clk k a b :
  returns m clk k a ->
  (forall k', returns (f a) clk k' b) ->
  returns (bind m f) clk k b.
Proof.
  intros [k1 H1] H2. destruct (H2 k1) as [k2 H3].
  exists k2. unfold bind. now rewrite H1.
Qed.

Lemma returns_inj {A} (m : M A) clk k a b :
  returns m clk k a -> returns m clk k b -> a = b.
Proof. intros [k1 H1] [k2 H2]. congruence. Qed.

(** ** Loops and comprehensions *)

(** A Hoare rule for [for_each]: a body that returns and keeps [I]
    makes the loop return and keep [I]. *)
Lemma for_each_inv {A S} (body : S -> A -> M S) (clk : Clock) (I : S -> Prop)
    (l : list A) :
  (forall s x k, In x l -> I s ->
     exists s' k', body s x clk k = Ok (s', k') /\ I s') ->
  forall s k, I s ->
    exists s' k', for_each body l s clk k = Ok (s', k') /\ I s'.
Proof.
  induction l as [|x l IH]; intros Hbody s k Hs; simpl.
  - exists s, k. now split.
  - destruct (Hbody s x k (or_introl eq_refl) Hs) as (s1 & k1 & E1 & I1).
    destruct (IH (fun s x k Hx => Hbody s x k (or_intror Hx)) s1 k1 I1)
      as (s2 & k2 & E2 & I2).
    exists s2, k2. split; [|exact I2].
    unfold bind. now rewrite E1.
Qed.

(** Two bodies that agree on the elements of the list give the same loop. *)
Lemma for_each_ext {A S} (body body' : S -> A -> M S) (clk : Clock) (l : list A) :
  (forall s x k, In x l -> body s x clk k = body' s x clk k) ->
  forall s k, for_each body l s clk k = for_each body' l s clk k.
Proof.
  induction l as [|x l IH]; intros H s k; simpl; [reflexivity|].
  unfold bind. rewrite (H s x k (or_introl eq_refl)).
  destruct (body' s x clk k) as [[s1 k1]|e]; [|reflexivity].
  apply IH. intros; apply H; now right.
Qed.

(** A comprehension whose condition is a pure test under [clk]. *)
Lemma comprehension_pure {A} (cond : A -> M bool) (clk : Clock) (f : A -> bool)
    (l : list A) :
  (forall x k, In x l -> returns (cond x) clk k (f x)) ->
  forall k, returns (comprehension cond l) clk k (filter f l).
Proof.
  induction l as [|x l IH]; intros H k; simpl.
  - apply returns_ret.
  - eapply returns_bind; [apply H; now left|]. intros k1.
    eapply returns_bind; [apply IH; intros; apply H; now right|]. intros k2.
    destruct (f x); apply returns_ret.
Qed.

(** A comprehension always returns when its condition does, and what
    it returns is drawn from the elements the given test accepts. *)
Lemma comprehension_bound {A} (cond : A -> M bool) (clk : Clock) (f : A -> bool)
    (l : list A) :
  (forall x k, exists b k', cond x clk k = Ok (b, k') /\ (b = true -> f x = true)) ->
  forall k, exists p k', comprehension cond l clk k = Ok (p, k')
                         /\ (length p <= length (filter f l))%nat.
Proof.
  intros H. induction l as [|x l IH]; intros k; simpl.
  - exists [], k. split; [reflexivity|simpl; lia].
  - destruct (H x k) as (b & k1 & E1 & Hb).
    destruct (IH k1) as (p & k2 & E2 & Hp).
    exists (if b then x :: p else p), k2. split.
    + unfold bind. rewrite E1, E2. reflexivity.
    + destruct b; [rewrite (Hb eq_refl); simpl; lia|].
      destruct (f x); simpl; lia.
Qed.

(** ** Looking up the first matching mark *)

Lemma first_match_none marks gid :
  first_match marks gid = None <-> has_verdict marks gid = false.
Proof.
  unfold first_match, has_verdict.
  induction marks as [|m ms IH]; simpl; [tauto|].
  destruct (String.eqb (QualityModeration.guideline_id m) gid); simpl.
  - split; discriminate.
  - exact IH.
Qed.

Lemma first_match_some marks gid m :
  first_match marks gid = Some m ->
  In m marks /\ QualityModeration.guideline_id m = gid.
Proof.
  unfold first_match. intros H. apply find_some in H.
  destruct H as [H1 H2]. split; [exact H1|]. now apply String.eqb_eq.
Qed.

(** The first match is the first: marks before it have another id. *)
Lemma first_match_split ms1 m ms2 gid :
  QualityModeration.guideline_id m = gid ->
  (forall m', In m' ms1 -> QualityModeration.guideline_id m' <> gid) ->
  first_match (ms1 ++ m :: ms2) gid = Some m.
Proof.
  intros Hm. unfold first_match.
  induction ms1 as [|m1 ms1 IH]; intros H; simpl.
  - apply String.eqb_eq in Hm. now rewrite Hm.
  - destruct (String.eqb_spec (QualityModeration.guideline_id m1) gid) as [E|_].
    + exfalso. apply (H m1); [now left|exact E].
    + apply IH. intros; apply H; now right.
Qed.

(** A mark for another guideline does not change the lookup. *)
Lemma first_match_remove ms1 m ms2 gid :
  QualityModeration.guideline_id m <> gid ->
  first_match (ms1 ++ m :: ms2) gid = first_match (ms1 ++ ms2) gid.
Proof.
  intros Hm. unfold first_match.
  induction ms1 as [|m1 ms1 IH]; simpl.
  - apply String.eqb_neq in Hm. now rewrite Hm.
  - destruct (String.eqb (QualityModeration.guideline_id m1) gid);
      [reflexivity|exact IH].
Qed.

Lemma no_verdict_saying marks gid b :
  has_verdict marks gid = false -> has_verdict_saying marks gid b = false.
Proof.
  unfold has_verdict, has_verdict_saying.
  induction marks as [|m ms IH]; simpl; [reflexivity|].
  destruct (String.eqb (QualityModeration.guideline_id m) gid); simpl.
  - discriminate.
  - exact IH.
Qed.

Lemma has_verdict_false_iff marks gid :
  has_verdict marks gid = false
  <-> forall m, In m marks -> QualityModeration.guideline_id m <> gid.
Proof.
  unfold has_verdict. induction marks as [|m ms IH]; simpl.
  - split; [intros _ m []|reflexivity].
  - destruct (String.eqb_spec (QualityModeration.guideline_id m) gid) as [E|N];
      simpl.
    + split; [discriminate|]. intros H. exfalso. now apply (H m); [left|].
    + rewrite IH. split.
      * intros H m' [<-|Hin]; [exact N|now apply H].
      * intros H m' Hin. apply H. now right.
Qed.

(** With one row per guideline, the first match is the only match. *)
Lemma first_match_only marks gid m b :
  one_row_per_guideline marks ->
  first_match marks gid = Some m ->
  has_verdict_saying marks gid b = Bool.eqb (QualityModeration.passed m) b.
Proof.
  unfold one_row_per_guideline, first_match, has_verdict_saying.
  induction marks as [|m0 ms IH]; simpl; intros Hnd Hf; [discriminate|].
  inversion Hnd as [|? ? Hnotin Hnd']; subst.
  destruct (String.eqb_spec (QualityModeration.guideline_id m0) gid) as [E|N];
    simpl.
  - inversion Hf; subst m0.
    assert (Hrest : has_verdict ms gid = false).
    { apply has_verdict_false_iff. intros m' Hin E'.
      apply Hnotin. rewrite E, <- E'. now apply in_map. }
    apply (no_verdict_saying _ _ b) in Hrest.
    unfold has_verdict_saying in Hrest. rewrite Hrest.
    now rewrite orb_false_r.
  - now apply IH.
Qed.

(** ** From check records to the words of the specification *)

Lemma is_unrated_counts marks c :
  built_from marks c -> is_unrated c = counts_unrated marks c.
Proof.
  intros [Hp _]. unfold is_unrated, counts_unrated. rewrite Hp.
  destruct (first_match marks (Check.guideline c)) as [m|] eqn:E; simpl.
  - destruct (has_verdict marks (Check.guideline c)) eqn:Hv; [reflexivity|].
    apply first_match_none in Hv. congruence.
  - apply first_match_none in E. now rewrite E.
Qed.

Lemma tally_passed_counts marks t c :
  one_row_per_guideline marks -> built_from marks c ->
  tally_passed t c = counts_passed marks t c.
Proof.
  intros Hone [Hp _]. unfold tally_passed, counts_passed. rewrite Hp.
  destruct (first_match marks (Check.guideline c)) as [m|] eqn:E; simpl.
  - rewrite (first_match_only _ _ _ true Hone E).
    now destruct (QualityModeration.passed m).
  - apply first_match_none in E.
    now rewrite (no_verdict_saying _ _ true E).
Qed.

Lemma tally_not_passed_counts marks t c :
  one_row_per_guideline marks -> built_from marks c ->
  tally_not_passed t c = counts_not_passed marks t c.
Proof.
  intros Hone [Hp _]. unfold tally_not_passed, counts_not_passed. rewrite Hp.
  destruct (first_match marks (Check.guideline c)) as [m|] eqn:E; simpl.
  - rewrite (first_match_only _ _ _ false Hone E).
    now destruct (QualityModeration.passed m).
  - apply first_match_none in E.
    now rewrite (no_verdict_saying _ _ false E).
Qed.

Lemma filter_ext_Forall {A} (f g : A -> bool) (P : A -> Prop) (l : list A) :
  Forall P l -> (forall x, P x -> f x = g x) -> filter f l = filter g l.
Proof.
  intros HF H. apply filter_ext_in. intros x Hx.
  apply H. rewrite Forall_forall in HF. now apply HF.
Qed.

Lemma built_from_check_of marks cg : built_from marks (check_of marks cg).
Proof. split; reflexivity. Qed.

(** ** The two loops *)

Lemma extend_nil marks st : extend marks st [] = st.
Proof.
  destruct st as [cs u]. unfold extend; simpl.
  now rewrite app_nil_r, Nat.add_0_r.
Qed.

Lemma extend_app marks st l1 l2 :
  extend marks (extend marks st l1) l2 = extend marks st (l1 ++ l2).
Proof.
  unfold extend; simpl.
  rewrite map_app, filter_app, length_app, app_assoc, Nat.add_assoc.
  reflexivity.
Qed.

Lemma loop_inv_extend marks st l :
  loop_inv marks st -> loop_inv marks (extend marks st l).
Proof.
  intros [HF Hu]. split; simpl.
  - apply Forall_app. split; [exact HF|].
    apply Forall_forall. intros c Hc. apply in_map_iff in Hc.
    destruct Hc as (cg & <- & _). apply built_from_check_of.
  - rewrite filter_app, length_app, Hu. reflexivity.
Qed.

(** One visit of the inner loop body reads the clock once; the
    guideline is skipped when that reading is before its activation. *)
Lemma guideline_body_step marks cat st g clk k :
  guideline_body marks cat st g clk k
  = Ok (if clk k <? Guideline.needed_to_pass_since g then st
        else extend marks st [(cat, g)], S k).
Proof.
  unfold guideline_body, bind, now, ret.
  destruct (clk k <? Guideline.needed_to_pass_since g); [reflexivity|].
  unfold extend, check_of, is_unrated; simpl.
  destruct (first_match marks (Guideline.id g)); simpl;
    do 3 f_equal; lia.
Qed.

Lemma inner_loop_frozen marks cat t gs :
  forall st k,
    returns (for_each (guideline_body marks cat) gs st) (frozen t) k
      (extend marks st (filter (fun cg => active t (snd cg)) (map (pair cat) gs))).
Proof.
  induction gs as [|g gs IH]; intros st k; simpl.
  - rewrite extend_nil. apply returns_ret.
  - eapply returns_bind.
    + exists (S k). apply guideline_body_step.
    + intros k'. unfold frozen at 1.
      change (active t g)
        with (negb (t <? Guideline.needed_to_pass_since g)).
      destruct (t <? Guideline.needed_to_pass_since g); simpl negb; cbv iota.
      * apply IH.
      * pose proof (IH (extend marks st [(cat, g)]) k') as H.
        rewrite extend_app in H. exact H.
Qed.

Lemma outer_loop_frozen marks t catalog :
  forall st k,
    returns (for_each (category_body marks) catalog st) (frozen t) k
      (extend marks st (active_guidelines t catalog)).
Proof.
  unfold active_guidelines.
  induction catalog as [|c catalog IH]; intros st k; simpl.
  - rewrite extend_nil. apply returns_ret.
  - eapply returns_bind.
    + apply inner_loop_frozen.
    + intros k'. rewrite filter_app, <- extend_app. apply IH.
Qed.

(** Over a clock that stands still at [t], the check list is the list
    of records of the guidelines active at [t], in catalog order. *)
Lemma collect_checks_frozen catalog marks t k :
  returns (collect_checks catalog marks) (frozen t) k
    (extend marks {| checks := []; unrated := 0 |} (active_guidelines t catalog)).
Proof. apply outer_loop_frozen. Qed.

(** ** The tallies *)

Lemma passed_items_frozen cs t k :
  returns (passed_items cs) (frozen t) k (filter (tally_passed t) cs).
Proof.
  apply comprehension_pure. intros c k' _.
  unfold passed_cond, tally_passed.
  destruct (Check.passed c) as [[|]|].
  - eapply returns_bind; [apply returns_now|]. intros; apply returns_ret.
  - apply returns_ret.
  - apply returns_ret.
Qed.

Lemma not_passed_items_frozen cs t k :
  returns (not_passed_items cs) (frozen t) k (filter (tally_not_passed t) cs).
Proof.
  apply comprehension_pure. intros c k' _.
  unfold not_passed_cond, tally_not_passed.
  destruct (Check.passed c) as [[|]|].
  - apply returns_ret.
  - eapply returns_bind; [apply returns_now|]. intros; apply returns_ret.
  - apply returns_ret.
Qed.

Lemma passed_items_bound cs clk k :
  exists p k', passed_items cs clk k = Ok (p, k')
    /\ (length p <= length (filter (fun c => match Check.passed c with
                                             | Some true => true
                                             | _ => false end) cs))%nat.
Proof.
  apply comprehension_bound. intros c k0. unfold passed_cond.
  destruct (Check.passed c) as [[|]|];
    try (exists false, k0; split; [reflexivity|discriminate]).
  eexists _, _. split; [reflexivity|reflexivity].
Qed.

Lemma not_passed_items_bound cs clk k :
  exists p k', not_passed_items cs clk k = Ok (p, k')
    /\ (length p <= length (filter (fun c => match Check.passed c with
                                             | Some false => true
                                             | _ => false end) cs))%nat.
Proof.
  apply comprehension_bound. intros c k0. unfold not_passed_cond.
  destruct (Check.passed c) as [[|]|];
    try (exists false, k0; split; [reflexivity|discriminate]).
  eexists _, _. split; [reflexivity|reflexivity].
Qed.

(** ** The latest update *)

Lemma fold_max_spec (l : list datetime) : forall x,
  let r := fold_left (fun best y => if best <? y then y else best) l x in
  x <= r /\ (forall y, In y l -> y <= r) /\ (r = x \/ In r l).
Proof.
  induction l as [|y l IH]; intros x; simpl.
  - split; [lia|]. split; [intros _ []|now left].
  - destruct (N.ltb_spec x y) as [Hlt|Hge].
    + destruct (IH y) as (H1 & H2 & H3). split; [lia|]. split.
      * intros z [<-|Hz]; [exact H1|now apply H2].
      * right. destruct H3 as [->|H3]; [now left|now right].
    + destruct (IH x) as (H1 & H2 & H3). split; [exact H1|]. split.
      * intros z [<-|Hz]; [lia|now apply H2].
      * destruct H3 as [H3|H3]; [now left|right; now right].
Qed.

(** [last_updated] never raises: the list it maximises ends with
    [datetime.min].  Its value bounds every mark and is attained. *)
Lemma last_updated_spec marks :
  exists lu, last_updated marks = Ok lu
    /\ (forall m, In m marks -> QualityModeration.updated_at m <= lu)
    /\ (marks = [] -> lu = datetime_min)
    /\ (marks <> [] ->
          exists m, In m marks /\ lu = QualityModeration.updated_at m).
Proof.
  unfold last_updated.
  destruct marks as [|m0 ms]; simpl.
  - exists datetime_min. split; [reflexivity|]. split; [intros _ []|].
    split; [reflexivity|congruence].
  - eexists. split; [reflexivity|].
    pose proof (fold_max_spec
                  (map QualityModeration.updated_at ms ++ [datetime_min])
                  (QualityModeration.updated_at m0)) as (H1 & H2 & H3).
    cbv zeta in *.
    split; [|split; [discriminate|]].
    + intros m [<-|Hm]; [exact H1|]. apply H2. apply in_or_app. left.
      now apply in_map.
    + intros _. destruct H3 as [H3|H3].
      * exists m0. split; [now left|exact H3].
      * apply in_app_or in H3. destruct H3 as [H3|[H3|[]]].
        -- apply in_map_iff in H3. destruct H3 as (m & Hm & Hin).
           exists m. split; [now right|now symmetry].
        -- exists m0. split; [now left|].
           rewrite <- H3 in H1 |- *. unfold datetime_min in *.
           apply N.le_0_r in H1. now rewrite H1.
Qed.

(** ** The whole computation *)

Lemma in_flatten catalog c g :
  In c catalog -> In g (GuidelineCategory.guidelines c) ->
  In (GuidelineCategory.id c, g) (flatten catalog).
Proof.
  intros Hc Hg. unfold flatten. apply in_flat_map.
  exists c. split; [exact Hc|]. now apply in_map.
Qed.

(** Over any clock the loops return a state that satisfies [loop_inv]
    and whose records all stem from the catalog. *)
Lemma collect_checks_sound catalog marks clk k :
  exists st k', collect_checks catalog marks clk k = Ok (st, k')
    /\ loop_inv marks st
    /\ Forall (from_catalog catalog marks clk) (checks st).
Proof.
  unfold collect_checks.
  destruct (for_each_inv (category_body marks) clk
              (fun st => loop_inv marks st
                         /\ Forall (from_catalog catalog marks clk) (checks st))
              catalog) with (s := {| checks := []; unrated := 0 |}) (k := k)
    as (st & k' & E & Hinv & Hfrom).
  - intros s c k0 Hc Hs. unfold category_body.
    apply (for_each_inv _ clk
             (fun st => loop_inv marks st
                        /\ Forall (from_catalog catalog marks clk) (checks st)));
      [|exact Hs].
    intros s' g k1 Hg [Hs1 Hs2]. rewrite guideline_body_step.
    eexists _, _. split; [reflexivity|].
    destruct (N.ltb_spec (clk k1) (Guideline.needed_to_pass_since g)) as [_|Hle];
      [now split|].
    split; [now apply loop_inv_extend|].
    simpl. apply Forall_app. split; [exact Hs2|].
    constructor; [|constructor].
    exists (GuidelineCategory.id c, g), k1.
    split; [now apply in_flatten|]. split; [reflexivity|exact Hle].
  - split; [split; [constructor|reflexivity]|constructor].
  - now exists st, k'.
Qed.

Lemma summarise_general marks st clk k :
  exists p np lu k',
    summarise marks st clk k = Ok (report_of st p np lu, k')
    /\ (p <= length (filter (fun c => match Check.passed c with
                                      | Some true => true
                                      | _ => false end) (checks st)))%nat
    /\ (np <= length (filter (fun c => match Check.passed c with
                                       | Some false => true
                                       | _ => false end) (checks st)))%nat
    /\ last_updated marks = Ok lu.
Proof.
  destruct (passed_items_bound (checks st) clk k) as (p & k1 & E1 & B1).
  destruct (not_passed_items_bound (checks st) clk k1) as (np & k2 & E2 & B2).
  destruct (last_updated_spec marks) as (lu & E3 & _).
  exists (length p), (length np), lu, k2.
  split; [|now repeat split].
  unfold summarise, bind, lift. rewrite E1, E2, E3. reflexivity.
Qed.

Lemma summarise_frozen marks st t k lu :
  last_updated marks = Ok lu ->
  returns (summarise marks st) (frozen t) k
    (report_of st (length (filter (tally_passed t) (checks st)))
                  (length (filter (tally_not_passed t) (checks st))) lu).
Proof.
  intros E. unfold summarise.
  eapply returns_bind; [apply passed_items_frozen|]. intros k1.
  eapply returns_bind; [apply not_passed_items_frozen|]. intros k2.
  eapply returns_bind; [|intros; apply returns_ret].
  exists k2. unfold lift. now rewrite E.
Qed.

(** The function returns over every clock, from every position. *)
Lemma status_general catalog marks clk k :
  exists st p np lu,
    returns (collect_checks catalog marks) clk k st
    /\ returns (quality_moderation_status catalog marks) clk k
         (report_of st p np lu)
    /\ loop_inv marks st
    /\ Forall (from_catalog catalog marks clk) (checks st)
    /\ (unrated st + p + np <= length (checks st))%nat
    /\ last_updated marks = Ok lu.
Proof.
  destruct (collect_checks_sound catalog marks clk k)
    as (st & k1 & E1 & Hinv & Hfrom).
  destruct (summarise_general marks st clk k1)
    as (p & np & lu & k2 & E2 & Bp & Bnp & Elu).
  exists st, p, np, lu.
  split; [now exists k1|]. split.
  { exists k2. unfold quality_moderation_status, bind. now rewrite E1. }
  split; [exact Hinv|]. split; [exact Hfrom|]. split; [|exact Elu].
  destruct Hinv as [_ Hu]. rewrite Hu. clear - Bp Bnp.
  revert p np Bp Bnp.
  induction (checks st) as [|c cs IH]; simpl; intros p np Bp Bnp; [lia|].
  unfold is_unrated at 1.
  destruct (Check.passed c) as [[|]|]; simpl in *.
  - specialize (IH (p - 1)%nat np). lia.
  - specialize (IH p (np - 1)%nat). lia.
  - specialize (IH p np). lia.
Qed.

(** Over a clock that stands still the report is a function of the
    records of the guidelines active at that instant. *)
Lemma status_frozen catalog marks t k lu :
  last_updated marks = Ok lu ->
  let cs := map (check_of marks) (active_guidelines t catalog) in
  returns (quality_moderation_status catalog marks) (frozen t) k
    (report_of {| checks := cs; unrated := length (filter is_unrated cs) |}
               (length (filter (tally_passed t) cs))
               (length (filter (tally_not_passed t) cs)) lu).
Proof.
  intros E cs. unfold quality_moderation_status.
  eapply returns_bind; [apply collect_checks_frozen|]. intros k1.
  exact (summarise_frozen marks
           (extend marks {| checks := []; unrated := 0 |}
                   (active_guidelines t catalog)) t k1 lu E).
Qed.

Lemma flatten_app c1 c2 : flatten (c1 ++ c2) = flatten c1 ++ flatten c2.
Proof. unfold flatten. apply flat_map_app. Qed.

Lemma active_guidelines_app t c1 c2 :
  active_guidelines t (c1 ++ c2)
  = active_guidelines t c1 ++ active_guidelines t c2.
Proof. unfold active_guidelines. now rewrite flatten_app, filter_app. Qed.

(** Removing a guideline that is not active at [t] does not change the
    sequence of active pairs. *)
Lemma active_guidelines_remove t pre cid gs1 g gs2 post :
  active t g = false ->
  active_guidelines t (pre ++ GuidelineCategory.mk cid (gs1 ++ g :: gs2) :: post)
  = active_guidelines t (pre ++ GuidelineCategory.mk cid (gs1 ++ gs2) :: post).
Proof.
  intros Hg. rewrite !active_guidelines_app. f_equal.
  change (?c :: post) with ([c] ++ post).
  rewrite !active_guidelines_app. f_equal.
  unfold active_guidelines, flatten; simpl. rewrite !app_nil_r.
  rewrite !map_app, !filter_app. simpl. now rewrite Hg.
Qed.

Lemma active_needed t catalog cg :
  In cg (active_guidelines t catalog) ->
  Guideline.needed_to_pass_since (snd cg) <= t.
Proof.
  unfold active_guidelines, active. intros H. apply filter_In in H.
  destruct H as [_ H]. apply negb_true_iff in H. now apply N.ltb_ge in H.
Qed.

(** ** Properties of the status computation *)

(** C1: over a single evaluation instant [t], a guideline whose
    activation time is strictly after [t] is skipped entirely.  The
    check list and the report are those of the catalog without that
    guideline, so it adds to none of the counters; its record is not in
    the check list, and no record of the list has an activation time
    after [t]. *)
Theorem future_guideline_is_skipped :
  forall (t : datetime) marks pre cid gs1 g gs2 post k k',
    t < Guideline.needed_to_pass_since g ->
    let catalog := pre ++ GuidelineCategory.mk cid (gs1 ++ g :: gs2) :: post in
    let without := pre ++ GuidelineCategory.mk cid (gs1 ++ gs2) :: post in
    exists st r,
      eval (collect_checks catalog marks) (frozen t) k = Ok st
      /\ eval (collect_checks without marks) (frozen t) k' = Ok st
      /\ ~ In (mk_check cid g (first_match marks (Guideline.id g))) (checks st)
      /\ (forall c, In c (checks st) -> Check.needed_to_pass_since c <= t)
      /\ eval (quality_moderation_status catalog marks) (frozen t) k = Ok r
      /\ eval (quality_moderation_status without marks) (frozen t) k' = Ok r.
Proof.
  intros t marks pre cid gs1 g gs2 post k k' Hfut catalog without.
  assert (Hg : active t g = false).
  { unfold active. apply negb_false_iff. now apply N.ltb_lt. }
  pose proof (active_guidelines_remove t pre cid gs1 g gs2 post Hg) as Hsame.
  fold catalog without in Hsame.
  destruct (last_updated_spec marks) as (lu & Elu & _).
  pose proof (collect_checks_frozen catalog marks t k) as C1.
  pose proof (collect_checks_frozen without marks t k') as C2.
  pose proof (status_frozen catalog marks t k lu Elu) as R1.
  pose proof (status_frozen without marks t k' lu Elu) as R2.
  cbv zeta in R1, R2. rewrite <- Hsame in C2, R2.
  assert (Hall : forall c,
             In c (checks (extend marks {| checks := []; unrated := 0 |}
                                  (active_guidelines t catalog))) ->
             Check.needed_to_pass_since c <= t).
  { simpl. intros c Hc. apply in_map_iff in Hc. destruct Hc as (cg & <- & Hcg).
    simpl. now apply (active_needed t catalog). }
  eexists _, _.
  split; [apply returns_eval, C1|]. split; [apply returns_eval, C2|].
  split.
  { intros Hin. apply Hall in Hin. simpl in Hin. lia. }
  split; [exact Hall|].
  split; [apply returns_eval, R1|apply returns_eval, R2].
Qed.

Lemma future_guideline_is_skipped_witness :
  exists st r,
    eval (collect_checks [GuidelineCategory.mk "general" [guideline_G; guideline_H]]
                         [])
         (frozen new_year_2024) 0 = Ok st
    /\ checks st = [mk_check "general" guideline_G None]
    /\ eval (quality_moderation_status
               [GuidelineCategory.mk "general" [guideline_G; guideline_H]] [])
            (frozen new_year_2024) 0 = Ok r
    /\ r = Report.mk false 1 0 0 datetime_min.
Proof.
  destruct (future_guideline_is_skipped new_year_2024 [] [] "general"
              [guideline_G] guideline_H [] [] 0%nat 0%nat)
    as (st & r & E1 & E2 & _ & _ & E3 & E4).
  - vm_compute. reflexivity.
  - exists st, r. split; [exact E1|]. split.
    + vm_compute in E2. now inversion E2.
    + split; [exact E3|]. vm_compute in E4. now inversion E4.
Defined.

(** C2: over every clock, the report's [passes] is
    [(unrated + not_passed) == 0]; it is true exactly when both
    counters are zero; and a catalog all of whose guidelines are still
    in the future at every reading yields a passing report. *)
Theorem passes_iff_nothing_unrated_or_failed :
  forall catalog marks clk k,
    exists r,
      eval (quality_moderation_status catalog marks) clk k = Ok r
      /\ Report.passes r
         = Nat.eqb (Report.unrated r + Report.not_passed r) 0
      /\ (Report.passes r = true
          <-> Report.unrated r = 0%nat /\ Report.not_passed r = 0%nat)
      /\ ((forall cg j, In cg (flatten catalog) ->
                        clk j < Guideline.needed_to_pass_since (snd cg)) ->
          Report.passes r = true
          /\ Report.unrated r = 0%nat /\ Report.passed r = 0%nat
          /\ Report.not_passed r = 0%nat).
Proof.
  intros catalog marks clk k.
  destruct (status_general catalog marks clk k)
    as (st & p & np & lu & _ & R & [_ Hu] & Hfrom & Hsum & _).
  exists (report_of st p np lu).
  split; [apply returns_eval, R|]. split; [reflexivity|]. split.
  - simpl. rewrite Nat.eqb_eq. lia.
  - intros Hfut.
    assert (Hnil : checks st = []).
    { destruct (checks st) as [|c cs]; [reflexivity|].
      inversion Hfrom as [|? ? (cg & j & Hin & _ & Hle) _]; subst.
      specialize (Hfut cg j Hin). lia. }
    rewrite Hnil in Hu, Hsum. simpl in Hu, Hsum |- *.
    assert (unrated st = 0%nat /\ p = 0%nat /\ np = 0%nat) as (-> & -> & ->)
      by lia.
    repeat split.
Qed.

Lemma passes_iff_nothing_unrated_or_failed_witness :
  exists r,
    eval (quality_moderation_status
            [GuidelineCategory.mk "general" [guideline_H]]
            [mark_for "H" false 5])
         (frozen new_year_2024) 0 = Ok r
    /\ Report.passes r = true.
Proof.
  destruct (passes_iff_nothing_unrated_or_failed
              [GuidelineCategory.mk "general" [guideline_H]]
              [mark_for "H" false 5] (frozen new_year_2024) 0%nat)
    as (r & E & _ & _ & Hfut).
  exists r. split; [exact E|]. apply Hfut.
  intros cg j [<-|[]]. vm_compute. reflexivity.
Defined.

(** C7: the status computation never raises.  Over every catalog,
    every list of marks, every clock and every clock position it
    returns a report; so does the route function over every table and
    app id, and for an app id without rows the report is the one
    computed from zero marks. *)
Theorem status_never_raises :
  forall catalog marks db app_id clk k,
    (exists r, eval (quality_moderation_status catalog marks) clk k = Ok r)
    /\ (exists r,
          eval (get_quality_moderation_status_for_appid db app_id) clk k = Ok r)
    /\ ((forall row, In row db -> QualityModeration.app_id row <> app_id) ->
        get_quality_moderation_status_for_appid db app_id clk k
        = quality_moderation_status GUIDELINES [] clk k).
Proof.
  intros catalog marks db app_id clk k. split; [|split].
  - destruct (status_general catalog marks clk k)
      as (st & p & np & lu & _ & R & _).
    eexists. apply returns_eval, R.
  - unfold get_quality_moderation_status_for_appid.
    destruct (status_general GUIDELINES (by_appid db app_id) clk k)
      as (st & p & np & lu & _ & R & _).
    eexists. apply returns_eval, R.
  - intros Hnone. unfold get_quality_moderation_status_for_appid.
    replace (by_appid db app_id) with (@nil QualityModeration.t); [reflexivity|].
    unfold by_appid. induction db as [|row db IH]; [reflexivity|]. simpl.
    destruct (String.eqb_spec (QualityModeration.app_id row) app_id) as [E|_].
    + exfalso. apply (Hnone row); [now left|exact E].
    + apply IH. intros row' Hin. apply Hnone. now right.
Qed.

Lemma status_never_raises_witness :
  get_quality_moderation_status_for_appid
    [mark_for "app-icon-contrast" true 5] "org.example.Unknown"
    (ticking new_year_2024) 0%nat
  = quality_moderation_status GUIDELINES [] (ticking new_year_2024) 0%nat.
Proof.
  apply (status_never_raises [] [] [mark_for "app-icon-contrast" true 5]
           "org.example.Unknown" (ticking new_year_2024) 0%nat).
  intros row [<-|[]]. vm_compute. discriminate.
Defined.

Lemma has_verdict_saying_iff marks gid b :
  has_verdict_saying marks gid b = true
  <-> exists m, In m marks /\ QualityModeration.guideline_id m = gid
                /\ QualityModeration.passed m = b.
Proof.
  unfold has_verdict_saying. rewrite existsb_exists. split.
  - intros (m & Hin & H). apply andb_true_iff in H. destruct H as [H1 H2].
    exists m. split; [exact Hin|]. split.
    + now apply String.eqb_eq.
    + now apply Bool.eqb_prop.
  - intros (m & Hin & H1 & H2). exists m. split; [exact Hin|].
    apply andb_true_iff. split.
    + now apply String.eqb_eq.
    + rewrite H2. apply Bool.eqb_reflx.
Qed.

(** C3: over a single evaluation instant [t], [passed] counts the
    records of the check list whose verdict says true and whose
    activation time is strictly before [t], and [not_passed] those
    whose verdict says false under the same condition; the verdict of
    a record is the first mark for its guideline, which with at most
    one row per guideline is the verdict that exists for it.  The
    comparison is made again at tally time: a rated record whose
    activation time is exactly [t] is in the check list and in neither
    tally. *)
Theorem tallies_need_strictly_past_activation :
  forall catalog marks (t : datetime) k,
    exists st r,
      eval (collect_checks catalog marks) (frozen t) k = Ok st
      /\ eval (quality_moderation_status catalog marks) (frozen t) k = Ok r
      /\ Report.passed r = length (filter (tally_passed t) (checks st))
      /\ Report.not_passed r = length (filter (tally_not_passed t) (checks st))
      /\ Forall (built_from marks) (checks st)
      /\ (one_row_per_guideline marks ->
          Report.passed r = length (filter (counts_passed marks t) (checks st))
          /\ Report.not_passed r
             = length (filter (counts_not_passed marks t) (checks st)))
      /\ (forall c (b : bool),
            (if b then counts_passed marks t c else counts_not_passed marks t c)
            = true
            <-> (exists m, In m marks
                           /\ QualityModeration.guideline_id m = Check.guideline c
                           /\ QualityModeration.passed m = b)
                /\ Check.needed_to_pass_since c < t)
      /\ (forall c, In c (checks st) -> Check.needed_to_pass_since c = t ->
            tally_passed t c = false /\ tally_not_passed t c = false).
Proof.
  intros catalog marks t k.
  destruct (last_updated_spec marks) as (lu & Elu & _).
  pose proof (collect_checks_frozen catalog marks t k) as C.
  pose proof (status_frozen catalog marks t k lu Elu) as R. cbv zeta in R.
  eexists _, _.
  split; [apply returns_eval, C|]. split; [apply returns_eval, R|].
  assert (HF : Forall (built_from marks)
                 (map (check_of marks) (active_guidelines t catalog))).
  { apply Forall_forall. intros c Hc. apply in_map_iff in Hc.
    destruct Hc as (cg & <- & _). apply built_from_check_of. }
  simpl. split; [reflexivity|]. split; [reflexivity|]. split; [exact HF|].
  split; [|split].
  - intros Hone. split; f_equal; apply (filter_ext_Forall _ _ _ _ HF);
      intros c Hc.
    + now apply tally_passed_counts.
    + now apply tally_not_passed_counts.
  - intros c b. unfold counts_passed, counts_not_passed.
    destruct b; rewrite andb_true_iff, has_verdict_saying_iff, N.ltb_lt;
      reflexivity.
  - intros c _ Ht. unfold tally_passed, tally_not_passed.
    rewrite Ht, N.ltb_irrefl. now destruct (Check.passed c) as [[|]|].
Qed.

Lemma tallies_need_strictly_past_activation_witness :
  exists st r,
    eval (collect_checks [GuidelineCategory.mk "general" [guideline_G]]
                         [mark_for "G" true 5])
         (frozen (datetime_of_date 2023 9 1)) 0 = Ok st
    /\ eval (quality_moderation_status
               [GuidelineCategory.mk "general" [guideline_G]]
               [mark_for "G" true 5])
            (frozen (datetime_of_date 2023 9 1)) 0 = Ok r
    /\ length (checks st) = 1%nat
    /\ Report.passed r = 0%nat.
Proof.
  destruct (tallies_need_strictly_past_activation
              [GuidelineCategory.mk "general" [guideline_G]]
              [mark_for "G" true 5] (datetime_of_date 2023 9 1) 0%nat)
    as (st & r & E1 & E2 & _ & _ & _ & Hone & _).
  exists st, r. split; [exact E1|]. split; [exact E2|].
  destruct Hone as [Hp _].
  - repeat constructor. simpl. tauto.
  - vm_compute in E1. inversion E1; subst st. split; [reflexivity|].
    rewrite Hp. vm_compute. reflexivity.
Defined.

(** C4: over every clock, [unrated] counts the records of the check
    list for whose guideline no verdict exists among the marks; no
    activation-time comparison takes part. *)
Theorem unrated_counts_checks_without_verdict :
  forall catalog marks clk k,
    exists st r,
      eval (collect_checks catalog marks) clk k = Ok st
      /\ eval (quality_moderation_status catalog marks) clk k = Ok r
      /\ Report.unrated r = length (filter (counts_unrated marks) (checks st))
      /\ (forall c, In c (checks st) ->
            (counts_unrated marks c = true
             <-> forall m, In m marks ->
                           QualityModeration.guideline_id m <> Check.guideline c)
            /\ (counts_unrated marks c = true <-> Check.passed c = None)).
Proof.
  intros catalog marks clk k.
  destruct (status_general catalog marks clk k)
    as (st & p & np & lu & C & R & [HF Hu] & _).
  exists st, (report_of st p np lu).
  split; [apply returns_eval, C|]. split; [apply returns_eval, R|]. split.
  - simpl. rewrite Hu. f_equal. apply (filter_ext_Forall _ _ _ _ HF).
    intros c Hc. now apply is_unrated_counts.
  - intros c Hc. rewrite Forall_forall in HF. specialize (HF c Hc).
    split.
    + unfold counts_unrated. rewrite negb_true_iff.
      apply has_verdict_false_iff.
    + rewrite <- (is_unrated_counts marks c HF). unfold is_unrated.
      destruct (Check.passed c); split; congruence.
Qed.

(** C5: over every catalog and every clock, [last-updated] is the
    maximum [updated_at] of all the marks handed to the computation,
    whatever guideline they are for: it bounds every mark and, when
    there is a mark, is the [updated_at] of one; with no marks it is
    [datetime.min]. *)
Theorem last_updated_is_latest_verdict :
  forall catalog marks clk k,
    exists r,
      eval (quality_moderation_status catalog marks) clk k = Ok r
      /\ (forall m, In m marks ->
            QualityModeration.updated_at m <= Report.last_updated r)
      /\ (marks <> [] ->
          exists m, In m marks
                    /\ Report.last_updated r = QualityModeration.updated_at m)
      /\ (marks = [] -> Report.last_updated r = datetime_min).
Proof.
  intros catalog marks clk k.
  destruct (status_general catalog marks clk k)
    as (st & p & np & lu & _ & R & _ & _ & _ & Elu).
  destruct (last_updated_spec marks) as (lu' & Elu' & Hub & Hmin & Hatt).
  assert (lu' = lu) by congruence. subst lu'.
  exists (report_of st p np lu).
  split; [apply returns_eval, R|]. now repeat split.
Qed.

Lemma last_updated_is_latest_verdict_witness :
  exists r,
    eval (quality_moderation_status
            [GuidelineCategory.mk "general" [guideline_G; guideline_H]]
            [mark_for "G" true 5; mark_for "H" true 9; mark_for "retired" false 12])
         (ticking new_year_2024) 0 = Ok r
    /\ Report.last_updated r = 12.
Proof.
  destruct (last_updated_is_latest_verdict
              [GuidelineCategory.mk "general" [guideline_G; guideline_H]]
              [mark_for "G" true 5; mark_for "H" true 9;
               mark_for "retired" false 12]
              (ticking new_year_2024) 0%nat)
    as (r & E & Hub & Hatt & _).
  exists r. split; [exact E|].
  destruct Hatt as (m & Hin & Hm); [discriminate|].
  assert (H12 := Hub (mark_for "retired" false 12)
                     (or_intror (or_intror (or_introl eq_refl)))).
  simpl in H12. rewrite Hm in *. clear - Hin H12.
  destruct Hin as [<-|[<-|[<-|[]]]]; simpl in *; [lia|lia|reflexivity].
Defined.

Lemma unrated_counts_checks_without_verdict_witness :
  exists st r,
    eval (collect_checks [GuidelineCategory.mk "general" [guideline_G]] [])
         (frozen (datetime_of_date 2023 9 1)) 0 = Ok st
    /\ eval (quality_moderation_status
               [GuidelineCategory.mk "general" [guideline_G]] [])
            (frozen (datetime_of_date 2023 9 1)) 0 = Ok r
    /\ Report.unrated r = 1%nat.
Proof.
  destruct (unrated_counts_checks_without_verdict
              [GuidelineCategory.mk "general" [guideline_G]] []
              (frozen (datetime_of_date 2023 9 1)) 0%nat)
    as (st & r & E1 & E2 & Hu & _).
  exists st, r. split; [exact E1|]. split; [exact E2|].
  rewrite Hu. vm_compute in E1. inversion E1; subst st. reflexivity.
Defined.

(** ** Counting the active guidelines *)

(** A record of an active guideline is unrated, tallied as passed,
    tallied as not passed, or rated with activation time exactly [t]. *)
Lemma four_way_partition (t : datetime) (cs : list Check.t) :
  Forall (fun c => Check.needed_to_pass_since c <= t) cs ->
  (length (filter is_unrated cs) + length (filter (tally_passed t) cs)
   + length (filter (tally_not_passed t) cs) + length (filter (tied t) cs)
   = length cs)%nat.
Proof.
  induction 1 as [|c cs Hc _ IH]; simpl; [reflexivity|].
  unfold is_unrated at 1, tally_passed at 1, tally_not_passed at 1, tied at 1.
  destruct (Check.passed c) as [[|]|]; simpl;
    try (destruct (N.ltb_spec (Check.needed_to_pass_since c) t);
         destruct (N.eqb_spec (Check.needed_to_pass_since c) t));
    simpl; lia.
Qed.

Lemma filter_nonempty {A} (f : A -> bool) (l : list A) :
  (0 < length (filter f l))%nat <-> exists x, In x l /\ f x = true.
Proof.
  induction l as [|x l IH]; simpl.
  - split; [lia|intros (x & [] & _)].
  - destruct (f x) eqn:E; simpl.
    + split; [|lia]. intros _. exists x. split; [now left|exact E].
    + rewrite IH. split.
      * intros (y & Hy & Fy). exists y. split; [now right|exact Fy].
      * intros (y & [<-|Hy] & Fy); [congruence|]. now exists y.
Qed.

(** A tied record exists exactly when the catalog has a guideline that
    activates at [t] and has a mark. *)
Lemma tied_exists catalog marks (t : datetime) :
  (exists c, In c (map (check_of marks) (active_guidelines t catalog))
             /\ tied t c = true)
  <-> exists cat g m,
        In (cat, g) (flatten catalog)
        /\ Guideline.needed_to_pass_since g = t
        /\ In m marks
        /\ QualityModeration.guideline_id m = Guideline.id g.
Proof.
  split.
  - intros (c & Hc & Ht). apply in_map_iff in Hc.
    destruct Hc as ([cat g] & <- & Hin).
    unfold active_guidelines in Hin. apply filter_In in Hin.
    destruct Hin as [Hin _]. unfold tied, check_of in Ht. simpl in Ht.
    destruct (first_match marks (Guideline.id g)) as [m|] eqn:E;
      [|discriminate].
    apply first_match_some in E. destruct E as [Hm Hid].
    simpl in Ht. apply N.eqb_eq in Ht. now exists cat, g, m.
  - intros (cat & g & m & Hin & Ht & Hm & Hid).
    exists (check_of marks (cat, g)). split.
    + apply in_map. unfold active_guidelines. apply filter_In.
      split; [exact Hin|]. unfold active. simpl.
      rewrite Ht, N.ltb_irrefl. reflexivity.
    + unfold tied, check_of. simpl.
      destruct (first_match marks (Guideline.id g)) as [m'|] eqn:E; simpl.
      * now apply N.eqb_eq.
      * apply first_match_none in E.
        rewrite has_verdict_false_iff in E.
        exfalso. now apply (E m).
Qed.

(** C6: over a single evaluation instant [t], the three counters add
    up to at most the number of guidelines active at [t] (activation
    time not strictly after [t]); the sum falls short of that number
    exactly when the catalog has a guideline whose activation time is
    [t] and for which a mark exists. *)
Theorem counters_bounded_by_active_guidelines :
  forall catalog marks (t : datetime) k,
    exists r,
      eval (quality_moderation_status catalog marks) (frozen t) k = Ok r
      /\ (Report.unrated r + Report.passed r + Report.not_passed r
          <= length (active_guidelines t catalog))%nat
      /\ ((Report.unrated r + Report.passed r + Report.not_passed r
           < length (active_guidelines t catalog))%nat
          <-> exists cat g m,
                In (cat, g) (flatten catalog)
                /\ Guideline.needed_to_pass_since g = t
                /\ In m marks
                /\ QualityModeration.guideline_id m = Guideline.id g).
Proof.
  intros catalog marks t k.
  destruct (last_updated_spec marks) as (lu & Elu & _).
  pose proof (status_frozen catalog marks t k lu Elu) as R. cbv zeta in R.
  eexists. split; [apply returns_eval, R|]. simpl.
  set (cs := map (check_of marks) (active_guidelines t catalog)).
  assert (Hlen : length cs = length (active_guidelines t catalog))
    by apply length_map.
  assert (Hact : Forall (fun c => Check.needed_to_pass_since c <= t) cs).
  { apply Forall_forall. intros c Hc. apply in_map_iff in Hc.
    destruct Hc as (cg & <- & Hcg). simpl. now apply (active_needed t catalog). }
  pose proof (four_way_partition t cs Hact) as Hsum.
  rewrite <- Hlen. split; [lia|].
  rewrite <- tied_exists, <- filter_nonempty. fold cs. lia.
Qed.

Lemma counters_bounded_by_active_guidelines_witness :
  exists r,
    eval (quality_moderation_status
            [GuidelineCategory.mk "general" [guideline_G]]
            [mark_for "G" true 5])
         (frozen (datetime_of_date 2023 9 1)) 0 = Ok r
    /\ (Report.unrated r + Report.passed r + Report.not_passed r < 1)%nat.
Proof.
  destruct (counters_bounded_by_active_guidelines
              [GuidelineCategory.mk "general" [guideline_G]]
              [mark_for "G" true 5] (datetime_of_date 2023 9 1) 0%nat)
    as (r & E & _ & Hlt).
  exists r. split; [exact E|].
  apply Hlt. exists "general", guideline_G, (mark_for "G" true 5).
  repeat split; simpl; auto.
Defined.

(** ** Marks that the catalog does not look up *)

(** The loops depend on the marks only through the lookups for the
    guideline ids of the catalog. *)
Lemma collect_checks_lookup_ext catalog marks marks' clk k :
  (forall cg, In cg (flatten catalog) ->
     first_match marks (Guideline.id (snd cg))
     = first_match marks' (Guideline.id (snd cg))) ->
  collect_checks catalog marks clk k = collect_checks catalog marks' clk k.
Proof.
  intros H. unfold collect_checks.
  apply for_each_ext. intros s c k0 Hc. unfold category_body.
  apply for_each_ext. intros s' g k1 Hg.
  rewrite !guideline_body_step. do 2 f_equal.
  unfold extend, check_of; simpl.
  pose proof (H (GuidelineCategory.id c, g) (in_flatten _ _ _ Hc Hg)) as E.
  simpl in E. now rewrite E.
Qed.

(** The marks enter the summary only through [last-updated]. *)
Lemma summarise_marks marks marks' st clk k :
  exists p np lu lu' k',
    summarise marks st clk k = Ok (report_of st p np lu, k')
    /\ summarise marks' st clk k = Ok (report_of st p np lu', k').
Proof.
  destruct (passed_items_bound (checks st) clk k) as (p & k1 & E1 & _).
  destruct (not_passed_items_bound (checks st) clk k1) as (np & k2 & E2 & _).
  destruct (last_updated_spec marks) as (lu & E3 & _).
  destruct (last_updated_spec marks') as (lu' & E3' & _).
  exists (length p), (length np), lu, lu', k2.
  unfold summarise, bind, lift. rewrite E1, E2, E3, E3'. now split.
Qed.

(** C8: a mark whose guideline id is not in the catalog is ignored by
    the aggregation.  Over every clock, removing it from the marks
    leaves the check list and the [unrated], [passed], [not_passed]
    and [passes] fields of the report as they were. *)
Theorem foreign_verdict_is_ignored :
  forall catalog ms1 m ms2 clk k,
    (forall cg, In cg (flatten catalog) ->
       Guideline.id (snd cg) <> QualityModeration.guideline_id m) ->
    exists st r r',
      eval (collect_checks catalog (ms1 ++ m :: ms2)) clk k = Ok st
      /\ eval (collect_checks catalog (ms1 ++ ms2)) clk k = Ok st
      /\ eval (quality_moderation_status catalog (ms1 ++ m :: ms2)) clk k = Ok r
      /\ eval (quality_moderation_status catalog (ms1 ++ ms2)) clk k = Ok r'
      /\ Report.unrated r = Report.unrated r'
      /\ Report.passed r = Report.passed r'
      /\ Report.not_passed r = Report.not_passed r'
      /\ Report.passes r = Report.passes r'.
Proof.
  intros catalog ms1 m ms2 clk k Hforeign.
  assert (Hsame : forall k0,
             collect_checks catalog (ms1 ++ m :: ms2) clk k0
             = collect_checks catalog (ms1 ++ ms2) clk k0).
  { intros k0. apply collect_checks_lookup_ext. intros cg Hcg.
    apply first_match_remove. intros E. now apply (Hforeign cg Hcg). }
  destruct (collect_checks_sound catalog (ms1 ++ m :: ms2) clk k)
    as (st & k1 & E1 & _).
  destruct (summarise_marks (ms1 ++ m :: ms2) (ms1 ++ ms2) st clk k1)
    as (p & np & lu & lu' & k2 & S1 & S2).
  exists st, (report_of st p np lu), (report_of st p np lu').
  split; [unfold eval; now rewrite E1|].
  split; [unfold eval; now rewrite <- Hsame, E1|].
  split; [unfold eval, quality_moderation_status, bind; now rewrite E1, S1|].
  split; [unfold eval, quality_moderation_status, bind;
          now rewrite <- Hsame, E1, S2|].
  now repeat split.
Qed.

Lemma foreign_verdict_is_ignored_witness :
  exists st r r',
    eval (collect_checks [GuidelineCategory.mk "general" [guideline_G]]
                         [mark_for "retired" false 12; mark_for "G" true 5])
         (ticking new_year_2024) 0 = Ok st
    /\ eval (quality_moderation_status
               [GuidelineCategory.mk "general" [guideline_G]]
               [mark_for "retired" false 12; mark_for "G" true 5])
            (ticking new_year_2024) 0 = Ok r
    /\ eval (quality_moderation_status
               [GuidelineCategory.mk "general" [guideline_G]]
               [mark_for "G" true 5])
            (ticking new_year_2024) 0 = Ok r'
    /\ Report.passes r = Report.passes r'.
Proof.
  destruct (foreign_verdict_is_ignored
              [GuidelineCategory.mk "general" [guideline_G]]
              [] (mark_for "retired" false 12) [mark_for "G" true 5]
              (ticking new_year_2024) 0%nat)
    as (st & r & r' & E1 & _ & E2 & E3 & _ & _ & _ & Hp).
  - intros cg [<-|[]]. vm_compute. discriminate.
  - now exists st, r, r'.
Defined.

(** ** The verdict store *)

Lemma upsert_at_stores db app_id gid passed moderator t :
  let row := QualityModeration.mk app_id gid passed moderator t in
  In row (upsert_at db app_id gid passed moderator t)
  /\ first_match (by_appid (upsert_at db app_id gid passed moderator t) app_id)
                 gid = Some row.
Proof.
  intros row. induction db as [|r db [IH1 IH2]]; simpl.
  - split; [now left|]. unfold first_match. simpl.
    rewrite String.eqb_refl. simpl. now rewrite String.eqb_refl.
  - destruct (String.eqb_spec (QualityModeration.app_id r) app_id) as [Ea|Na];
      simpl.
    + destruct (String.eqb_spec (QualityModeration.guideline_id r) gid)
        as [Eg|Ng]; simpl.
      * split; [now left|]. rewrite String.eqb_refl. unfold first_match. simpl.
        now rewrite String.eqb_refl.
      * split; [now right|]. apply String.eqb_eq in Ea. rewrite Ea.
        unfold first_match. simpl. apply String.eqb_neq in Ng. rewrite Ng.
        exact IH2.
    + split; [now right|]. apply String.eqb_neq in Na. rewrite Na. exact IH2.
Qed.

(** C9: the upsert accepts every input.  Whatever the table, the app
    id, the guideline id (that of a read-only guideline, or one the
    catalog does not have), the verdict and the moderator, the handler
    returns, and the row it was given is in the table afterwards and is
    the one the status computation finds for that guideline. *)
Theorem upsert_accepts_every_input :
  forall db app_id guideline_id passed moderator clk k,
    exists db',
      set_quality_moderation_for_app
        db (UpsertQualityModeration.mk guideline_id passed) app_id moderator clk k
      = Ok (db', S k)
      /\ In (QualityModeration.mk app_id guideline_id passed moderator (clk k)) db'
      /\ first_match (by_appid db' app_id) guideline_id
         = Some (QualityModeration.mk app_id guideline_id passed moderator (clk k)).
Proof.
  intros db app_id gid passed moderator clk k.
  exists (upsert_at db app_id gid passed moderator (clk k)).
  split; [reflexivity|]. apply upsert_at_stores.
Qed.

(** ** Several marks for one guideline *)

(** C10: when the marks hold several verdicts for one guideline id,
    the check record of that guideline carries the [passed] and the
    [updated_at] of the first of them in list order (over every clock;
    and over a single instant [t] the record of an active guideline is
    in the check list), while [last-updated] bounds the [updated_at] of
    every mark, the later duplicates too. *)
Theorem first_duplicate_wins :
  forall catalog marks clk k,
    exists st r,
      eval (collect_checks catalog marks) clk k = Ok st
      /\ eval (quality_moderation_status catalog marks) clk k = Ok r
      /\ (forall c ms1 m ms2,
            In c (checks st) ->
            marks = ms1 ++ m :: ms2 ->
            QualityModeration.guideline_id m = Check.guideline c ->
            (forall m', In m' ms1 ->
                        QualityModeration.guideline_id m' <> Check.guideline c) ->
            Check.passed c = Some (QualityModeration.passed m)
            /\ Check.updated_at c = Some (QualityModeration.updated_at m))
      /\ (forall (t : datetime) cat g ms1 m ms2,
            clk = frozen t ->
            In (cat, g) (flatten catalog) ->
            Guideline.needed_to_pass_since g <= t ->
            marks = ms1 ++ m :: ms2 ->
            QualityModeration.guideline_id m = Guideline.id g ->
            (forall m', In m' ms1 ->
                        QualityModeration.guideline_id m' <> Guideline.id g) ->
            In {| Check.category := cat;
                  Check.guideline := Guideline.id g;
                  Check.needed_to_pass_since := Guideline.needed_to_pass_since g;
                  Check.passed := Some (QualityModeration.passed m);
                  Check.updated_at := Some (QualityModeration.updated_at m) |}
               (checks st))
      /\ (forall m, In m marks ->
            QualityModeration.updated_at m <= Report.last_updated r).
Proof.
  intros catalog marks clk k.
  destruct (status_general catalog marks clk k)
    as (st & p & np & lu & C & R & [HF _] & _ & _ & Elu).
  destruct (last_updated_spec marks) as (lu' & Elu' & Hub & _).
  assert (lu' = lu) by congruence. subst lu'.
  exists st, (report_of st p np lu).
  split; [apply returns_eval, C|]. split; [apply returns_eval, R|].
  split; [|split; [|exact Hub]].
  - intros c ms1 m ms2 Hc -> Hm Hfirst.
    rewrite Forall_forall in HF. destruct (HF c Hc) as [Hp Hu].
    rewrite Hp, Hu, (first_match_split ms1 m ms2 _ Hm Hfirst). now split.
  - intros t cat g ms1 m ms2 -> Hin Hact -> Hm Hfirst.
    pose proof (collect_checks_frozen catalog (ms1 ++ m :: ms2) t k) as C'.
    rewrite (returns_inj _ _ _ _ _ C C'). simpl.
    apply in_map_iff. exists (cat, g). split.
    + unfold check_of, mk_check. simpl.
      now rewrite (first_match_split ms1 m ms2 _ Hm Hfirst).
    + unfold active_guidelines. apply filter_In. split; [exact Hin|].
      unfold active. simpl. apply negb_true_iff. now apply N.ltb_ge.
Qed.

Lemma first_duplicate_wins_witness :
  exists st r,
    eval (collect_checks [GuidelineCategory.mk "general" [guideline_G]]
                         [mark_for "G" false 5; mark_for "G" true 9])
         (frozen new_year_2024) 0 = Ok st
    /\ eval (quality_moderation_status
               [GuidelineCategory.mk "general" [guideline_G]]
               [mark_for "G" false 5; mark_for "G" true 9])
            (frozen new_year_2024) 0 = Ok r
    /\ In (Check.mk "general" "G" (datetime_of_date 2023 9 1)
                    (Some false) (Some 5)) (checks st)
    /\ 9 <= Report.last_updated r.
Proof.
  destruct (first_duplicate_wins
              [GuidelineCategory.mk "general" [guideline_G]]
              [mark_for "G" false 5; mark_for "G" true 9]
              (frozen new_year_2024) 0%nat)
    as (st & r & E1 & E2 & _ & Hin & Hub).
  exists st, r. split; [exact E1|]. split; [exact E2|]. split.
  - apply (Hin new_year_2024 "general" guideline_G []
               (mark_for "G" false 5) [mark_for "G" true 9]).
    + reflexivity.
    + simpl. now left.
    + vm_compute. discriminate.
    + reflexivity.
    + reflexivity.
    + intros m' [].
  - apply (Hub (mark_for "G" true 9)). simpl. tauto.
Defined.

(** ** The scenarios of the specification, and the clock *)

(** One guideline active since 2023-09-01, evaluated on 2024-01-01
    without a verdict. *)
Example scenario_unrated :
  eval (quality_moderation_status
          [GuidelineCategory.mk "general" [guideline_G]] [])
       (frozen new_year_2024) 0
  = Ok (Report.mk false 1 0 0 datetime_min).
Proof. vm_compute. reflexivity. Qed.

(** The same after [upsert(X, G, true, mod1)]. *)
Example scenario_passed :
  eval (db <- upsert [] "org.gnome.Glade" "G" true 7 ;;
        quality_moderation_status
          [GuidelineCategory.mk "general" [guideline_G]]
          (by_appid db "org.gnome.Glade"))
       (frozen new_year_2024) 0
  = Ok (Report.mk true 0 1 0 new_year_2024).
Proof. vm_compute. reflexivity. Qed.

(** Two verdicts for one guideline: the first one is counted, the
    second one sets [last-updated]. *)
Example scenario_duplicates :
  eval (quality_moderation_status
          [GuidelineCategory.mk "general" [guideline_G]]
          [mark_for "G" false 5; mark_for "G" true 9])
       (frozen new_year_2024) 0
  = Ok (Report.mk false 0 0 1 9).
Proof. vm_compute. reflexivity. Qed.

(** The tally reads the clock again.  Over a clock that stands still
    at the activation instant of [G], the rated guideline is in the
    check list and in no tally; over a clock that has advanced by the
    time of the tally, it is counted. *)
Example tie_frozen :
  eval (quality_moderation_status
          [GuidelineCategory.mk "general" [guideline_G]] [mark_for "G" true 5])
       (frozen (datetime_of_date 2023 9 1)) 0
  = Ok (Report.mk true 0 0 0 5).
Proof. vm_compute. reflexivity. Qed.

Example tie_ticking :
  eval (quality_moderation_status
          [GuidelineCategory.mk "general" [guideline_G]] [mark_for "G" true 5])
       (ticking (datetime_of_date 2023 9 1)) 0
  = Ok (Report.mk true 0 1 0 5).
Proof. vm_compute. reflexivity. Qed.

(** The shipped catalog on 2024-01-01, for an app without rows: all 23
    guidelines are active and unrated. *)
Example shipped_catalog_unrated :
  eval (get_quality_moderation_status_for_appid [] "org.gnome.Glade")
       (ticking new_year_2024) 0
  = Ok (Report.mk false 23 0 0 datetime_min).
Proof. vm_compute. reflexivity. Qed.

(** A verdict for a read-only guideline of the shipped catalog, and one
    for an id the catalog does not have, are both stored. *)
Example upsert_read_only :
  existsb (fun cg => String.eqb (Guideline.id (snd cg)) "app-name-not-too-long"
                     && Guideline.read_only (snd cg)) (flatten GUIDELINES) = true
  /\ eval (set_quality_moderation_for_app
             [] (UpsertQualityModeration.mk "app-name-not-too-long" true)
             "org.gnome.Glade" 7)
          (frozen new_year_2024) 0
     = Ok [QualityModeration.mk "org.gnome.Glade" "app-name-not-too-long"
                                true 7 new_year_2024].
Proof. split; vm_compute; reflexivity. Qed.

Example upsert_unknown_guideline :
  existsb (fun cg => String.eqb (Guideline.id (snd cg)) "no-such-guideline")
          (flatten GUIDELINES) = false
  /\ eval (set_quality_moderation_for_app
             [] (UpsertQualityModeration.mk "no-such-guideline" false)
             "org.gnome.Glade" 7)
          (frozen new_year_2024) 0
     = Ok [QualityModeration.mk "org.gnome.Glade" "no-such-guideline"
                                false 7 new_year_2024].
Proof. split; vm_compute; reflexivity. Qed.

(** * Beyond a single instant: the loops over any clock *)

Lemma for_each_app {A S} (body : S -> A -> M S) (l1 l2 : list A) s clk k :
  for_each body (l1 ++ l2) s clk k
  = match for_each body l1 s clk k with
    | Ok (s', k') => for_each body l2 s' clk k'
    | Raise e => Raise e
    end.
Proof.
  revert s k. induction l1 as [|x l1 IH]; intros s k; simpl; [reflexivity|].
  unfold bind. destruct (body s x clk k) as [[s1 k1]|e]; [apply IH|reflexivity].
Qed.

Lemma for_each_map {A B S} (body : S -> B -> M S) (f : A -> B) (l : list A) s clk k :
  for_each body (map f l) s clk k = for_each (fun s x => body s (f x)) l s clk k.
Proof.
  revert s k. induction l as [|x l IH]; intros s k; simpl; [reflexivity|].
  unfold bind. destruct (body s (f x) clk k) as [[s1 k1]|e];
    [apply IH|reflexivity].
Qed.

(** The two nested loops are one loop over the flattened catalog. *)
Lemma nested_loops_flat marks catalog st clk k :
  for_each (category_body marks) catalog st clk k
  = for_each (pair_body marks) (flatten catalog) st clk k.
Proof.
  revert st k. induction catalog as [|c catalog IH]; intros st k; simpl;
    [reflexivity|].
  rewrite for_each_app. unfold bind, category_body at 1.
  rewrite for_each_map. unfold pair_body at 1. simpl.
  destruct (for_each _ (GuidelineCategory.guidelines c) st clk k)
    as [[s1 k1]|e]; [apply IH|reflexivity].
Qed.

Lemma flat_loop_general marks clk l :
  forall st k,
    for_each (pair_body marks) l st clk k
    = Ok (extend marks st (active_at clk k l), (k + length l)%nat).
Proof.
  induction l as [|[cat g] l IH]; intros st k; simpl.
  - now rewrite extend_nil, Nat.add_0_r.
  - unfold bind, pair_body at 1. simpl. rewrite guideline_body_step.
    rewrite IH, Nat.add_succ_r. simpl.
    destruct (clk k <? Guideline.needed_to_pass_since g); [reflexivity|].
    do 2 f_equal. apply (extend_app marks st [(cat, g)]).
Qed.

Lemma active_at_in clk l : forall k cg,
  In cg (active_at clk k l) ->
  In cg l /\ exists j, (k <= j < k + length l)%nat
                       /\ Guideline.needed_to_pass_since (snd cg) <= clk j.
Proof.
  induction l as [|cg0 l IH]; intros k cg; simpl; [intros []|].
  destruct (N.ltb_spec (clk k) (Guideline.needed_to_pass_since (snd cg0)))
    as [_|Hle].
  - intros H. destruct (IH _ _ H) as (Hin & j & Hj & Hle).
    split; [now right|]. exists j. split; [lia|exact Hle].
  - intros [<-|H].
    + split; [now left|]. exists k. split; [lia|exact Hle].
    + destruct (IH _ _ H) as (Hin & j & Hj & Hle').
      split; [now right|]. exists j. split; [lia|exact Hle'].
Qed.

Lemma active_at_frozen t k l :
  active_at (frozen t) k l = filter (fun cg => active t (snd cg)) l.
Proof.
  revert k. induction l as [|cg l IH]; intros k; simpl; [reflexivity|].
  unfold frozen at 1, active at 1. rewrite IH.
  now destruct (t <? Guideline.needed_to_pass_since (snd cg)).
Qed.

(** The loops over any clock, in closed form. *)
Lemma collect_checks_general catalog marks clk k :
  collect_checks catalog marks clk k
  = Ok (extend marks {| checks := []; unrated := 0 |}
               (active_at clk k (flatten catalog)),
        (k + length (flatten catalog))%nat).
Proof.
  unfold collect_checks. rewrite nested_loops_flat. apply flat_loop_general.
Qed.

(** X1: over any clock the two loops read the clock exactly once per
    guideline of the catalog, in catalog order, and the check list is
    the list of records, in that order, of the guidelines whose
    activation time is not after their own reading. *)
Theorem check_list_follows_catalog_order :
  forall catalog marks clk k,
    exists st,
      collect_checks catalog marks clk k
      = Ok (st, (k + length (flatten catalog))%nat)
      /\ checks st
         = map (check_of marks) (active_at clk k (flatten catalog))
      /\ (forall t, clk = frozen t ->
            map (fun c => (Check.category c, Check.guideline c,
                           Check.needed_to_pass_since c)) (checks st)
            = map (fun cg => (fst cg, Guideline.id (snd cg),
                              Guideline.needed_to_pass_since (snd cg)))
                  (filter (fun cg => Guideline.needed_to_pass_since (snd cg) <=? t)
                          (flatten catalog))).
Proof.
  intros catalog marks clk k.
  eexists. split; [apply collect_checks_general|].
  split; [reflexivity|].
  intros t ->. simpl. rewrite active_at_frozen, map_map. simpl.
  f_equal. apply filter_ext. intros cg. unfold active.
  rewrite N.leb_antisym. reflexivity.
Qed.

Lemma check_list_follows_catalog_order_witness :
  exists st,
    collect_checks [GuidelineCategory.mk "general" [guideline_H; guideline_G]]
                   [] (frozen new_year_2024) 0%nat = Ok (st, 2%nat)
    /\ map (fun c => (Check.category c, Check.guideline c)) (checks st)
       = [("general", "G")].
Proof.
  destruct (check_list_follows_catalog_order
              [GuidelineCategory.mk "general" [guideline_H; guideline_G]]
              [] (frozen new_year_2024) 0%nat) as (st & E & _ & Hf).
  exists st. split; [exact E|].
  specialize (Hf new_year_2024 eq_refl).
  apply (f_equal (map (fun x => (fst (fst x), snd (fst x))))) in Hf.
  rewrite !map_map in Hf. simpl in Hf. rewrite Hf. vm_compute. reflexivity.
Defined.

(** ** The tallies over any clock *)

Lemma summarise_from marks st clk k p k1 np k2 lu :
  passed_items (checks st) clk k = Ok (p, k1) ->
  not_passed_items (checks st) clk k1 = Ok (np, k2) ->
  last_updated marks = Ok lu ->
  summarise marks st clk k = Ok (report_of st (length p) (length np) lu, k2).
Proof.
  intros E1 E2 E3. unfold summarise, bind, lift. now rewrite E1, E2, E3.
Qed.

(** One test of a tally: the clock is read exactly when the record
    carries the verdict the tally looks for. *)
Lemma tally_cond_step (want : bool) c clk k :
  (if want then passed_cond else not_passed_cond) c clk k
  = Ok (if says want c then Check.needed_to_pass_since c <? clk k else false,
        if says want c then S k else k).
Proof.
  unfold says, passed_cond, not_passed_cond.
  destruct want; destruct (Check.passed c) as [[|]|]; reflexivity.
Qed.

(** A tally reads the clock once for every record whose verdict is the
    one it looks for, and for no other record. *)
Lemma tally_reads (want : bool) cs clk :
  forall k, exists p,
    comprehension (if want then passed_cond else not_passed_cond) cs clk k
    = Ok (p, (k + length (filter (says want) cs))%nat).
Proof.
  induction cs as [|c cs IH]; intros k; simpl.
  - exists []. now rewrite Nat.add_0_r.
  - unfold bind. rewrite tally_cond_step.
    destruct (says want c); simpl.
    + destruct (IH (S k)) as (p & ->). rewrite Nat.add_succ_r.
      eexists; reflexivity.
    + destruct (IH k) as (p & ->). eexists; reflexivity.
Qed.

(** When every later reading is past the activation time of every
    record, a tally keeps exactly the records with its verdict. *)
Lemma tally_all (want : bool) cs clk :
  forall k,
    (forall c j, In c cs -> (k <= j)%nat ->
                 Check.needed_to_pass_since c < clk j) ->
    comprehension (if want then passed_cond else not_passed_cond) cs clk k
    = Ok (filter (says want) cs, (k + length (filter (says want) cs))%nat).
Proof.
  induction cs as [|c cs IH]; intros k H; simpl.
  - now rewrite Nat.add_0_r.
  - assert (Hc : (Check.needed_to_pass_since c <? clk k) = true).
    { apply N.ltb_lt. apply H; [now left|lia]. }
    unfold bind. rewrite tally_cond_step, Hc.
    destruct (says want c); simpl.
    + rewrite IH; [now rewrite Nat.add_succ_r|].
      intros c' j Hin Hj. apply H; [now right|lia].
    + rewrite IH; [reflexivity|].
      intros c' j Hin Hj. apply H; [now right|lia].
Qed.

Lemma rated_split cs :
  (length (filter (says true) cs) + length (filter (says false) cs)
   = length (filter is_rated cs))%nat.
Proof.
  unfold says, is_rated, is_unrated.
  induction cs as [|c cs IH]; simpl; [reflexivity|].
  destruct (Check.passed c) as [[|]|]; simpl; lia.
Qed.

Lemma unrated_rated cs :
  (length (filter is_unrated cs) + length (filter is_rated cs) = length cs)%nat.
Proof.
  unfold is_rated.
  induction cs as [|c cs IH]; simpl; [reflexivity|].
  destruct (is_unrated c); simpl; lia.
Qed.

(** X2: over any clock the whole computation reads the clock once per
    guideline of the catalog and once more per rated record of the
    check list: the tallies' [and] does not reach [now()] for an
    unrated record. *)
Theorem clock_readings_of_status :
  forall catalog marks clk k,
    exists st r,
      collect_checks catalog marks clk k
      = Ok (st, (k + length (flatten catalog))%nat)
      /\ quality_moderation_status catalog marks clk k
         = Ok (r, (k + length (flatten catalog)
                   + length (filter is_rated (checks st)))%nat)
      /\ (length (filter is_rated (checks st))
          = length (checks st) - Report.unrated r)%nat.
Proof.
  intros catalog marks clk k.
  destruct (collect_checks_sound catalog marks clk k)
    as (st & k1 & E1 & [_ Hu] & _).
  assert (Hk1 : k1 = (k + length (flatten catalog))%nat).
  { rewrite collect_checks_general in E1. congruence. }
  subst k1.
  destruct (tally_reads true (checks st) clk (k + length (flatten catalog)))
    as (p & Ep).
  destruct (tally_reads false (checks st) clk
              (k + length (flatten catalog)
               + length (filter (says true) (checks st))))
    as (np & Enp).
  destruct (last_updated_spec marks) as (lu & Elu & _).
  exists st, (report_of st (length p) (length np) lu).
  split; [exact E1|]. split.
  - unfold quality_moderation_status, bind. rewrite E1.
    rewrite (summarise_from marks st clk _ _ _ _ _ lu Ep Enp Elu).
    now rewrite <- rated_split, Nat.add_assoc.
  - simpl. rewrite Hu. pose proof (unrated_rated (checks st)). lia.
Qed.

(** X3: over a clock that advances strictly between any two readings,
    every rated record of the check list is tallied: [passed] counts
    the records with a true verdict, [not_passed] those with a false
    verdict, and the three counters add up to the length of the check
    list. *)
Theorem advancing_clock_tallies_every_rated_record :
  forall catalog marks clk k,
    (forall i j, (i < j)%nat -> clk i < clk j) ->
    exists st r,
      eval (collect_checks catalog marks) clk k = Ok st
      /\ eval (quality_moderation_status catalog marks) clk k = Ok r
      /\ Report.passed r = length (filter (says true) (checks st))
      /\ Report.not_passed r = length (filter (says false) (checks st))
      /\ (Report.unrated r + Report.passed r + Report.not_passed r
          = length (checks st))%nat.
Proof.
  intros catalog marks clk k Hclk.
  destruct (collect_checks_sound catalog marks clk k)
    as (st & k1 & E1 & [_ Hu] & _).
  pose proof (collect_checks_general catalog marks clk k) as E1'.
  rewrite E1 in E1'. inversion E1' as [[Hst Hk1]].
  assert (Hcs : checks st
                = map (check_of marks) (active_at clk k (flatten catalog)))
    by now rewrite Hst.
  clear E1' Hst.
  assert (Hpast : forall c j, In c (checks st) -> (k1 <= j)%nat ->
                              Check.needed_to_pass_since c < clk j).
  { intros c j Hc Hj. rewrite Hcs in Hc. apply in_map_iff in Hc.
    destruct Hc as (cg & <- & Hcg). apply active_at_in in Hcg.
    destruct Hcg as (_ & i & Hi & Hle). simpl.
    apply (N.le_lt_trans _ (clk i)); [exact Hle|]. apply Hclk. lia. }
  pose proof (tally_all true (checks st) clk k1 Hpast) as Ep.
  pose proof (tally_all false (checks st) clk
                (k1 + length (filter (says true) (checks st)))
                (fun c j Hc Hj => Hpast c j Hc
                   (Nat.le_trans _ _ _ (Nat.le_add_r _ _) Hj))) as Enp.
  destruct (last_updated_spec marks) as (lu & Elu & _).
  eexists st, _.
  split; [unfold eval; now rewrite E1|]. split.
  { unfold eval, quality_moderation_status, bind. rewrite E1.
    now rewrite (summarise_from marks st clk _ _ _ _ _ lu Ep Enp Elu). }
  simpl. split; [reflexivity|]. split; [reflexivity|].
  rewrite Hu, <- Nat.add_assoc, rated_split. apply unrated_rated.
Qed.

Lemma advancing_clock_tallies_every_rated_record_witness :
  exists r,
    eval (quality_moderation_status
            [GuidelineCategory.mk "general" [guideline_G]] [mark_for "G" true 5])
         (ticking (datetime_of_date 2023 9 1)) 0 = Ok r
    /\ Report.passed r = 1%nat.
Proof.
  destruct (advancing_clock_tallies_every_rated_record
              [GuidelineCategory.mk "general" [guideline_G]]
              [mark_for "G" true 5] (ticking (datetime_of_date 2023 9 1)) 0%nat)
    as (st & r & E1 & E2 & Hp & _).
  - intros i j Hij. unfold ticking. lia.
  - exists r. split; [exact E2|]. rewrite Hp.
    vm_compute in E1. inversion E1; subst st. reflexivity.
Defined.

(** * What the report depends on *)

Lemma filter_length_zero {A} (f : A -> bool) (l : list A) :
  length (filter f l) = 0%nat <-> forall x, In x l -> f x = false.
Proof.
  induction l as [|x l IH]; simpl.
  - split; [intros _ x []|reflexivity].
  - destruct (f x) eqn:E; simpl.
    + split; [discriminate|]. intros H. specialize (H x (or_introl eq_refl)).
      congruence.
    + rewrite IH. split.
      * intros H y [<-|Hy]; [exact E|now apply H].
      * intros H y Hy. apply H. now right.
Qed.

Lemma filter_length_mono {A} (f g : A -> bool) (l : list A) :
  (forall x, In x l -> f x = true -> g x = true) ->
  (length (filter f l) <= length (filter g l))%nat.
Proof.
  induction l as [|x l IH]; intros H; simpl; [lia|].
  assert (IH' := IH (fun y Hy => H y (or_intror Hy))).
  destruct (f x) eqn:E.
  - rewrite (H x (or_introl eq_refl) E). simpl. lia.
  - destruct (g x); simpl; lia.
Qed.

Lemma filter_map_filter {A B} (a : A -> bool) (f : A -> B) (g : B -> bool) l :
  filter g (map f (filter a l)) = map f (filter (fun x => a x && g (f x)) l).
Proof.
  induction l as [|x l IH]; simpl; [reflexivity|].
  destruct (a x); simpl; [|exact IH].
  destruct (g (f x)); simpl; now rewrite IH.
Qed.

(** X4: over a single instant [t] the app passes exactly when every
    guideline active at [t] has a mark, and the first mark of every
    guideline that activated strictly before [t] says true.  A false
    verdict for a guideline activating exactly at [t] does not make
    the app fail. *)
Theorem passes_characterised :
  forall catalog marks (t : datetime) k,
    exists r,
      eval (quality_moderation_status catalog marks) (frozen t) k = Ok r
      /\ (Report.passes r = true
          <-> forall cg, In cg (flatten catalog) ->
                Guideline.needed_to_pass_since (snd cg) <= t ->
                exists m,
                  first_match marks (Guideline.id (snd cg)) = Some m
                  /\ (QualityModeration.passed m = false ->
                      Guideline.needed_to_pass_since (snd cg) = t)).
Proof.
  intros catalog marks t k.
  destruct (last_updated_spec marks) as (lu & Elu & _).
  pose proof (status_frozen catalog marks t k lu Elu) as R. cbv zeta in R.
  eexists. split; [apply returns_eval, R|]. simpl.
  set (cs := map (check_of marks) (active_guidelines t catalog)).
  rewrite Nat.eqb_eq.
  assert (Hz : (length (filter is_unrated cs)
                + length (filter (tally_not_passed t) cs) = 0)%nat
               <-> (forall c, In c cs -> is_unrated c = false)
                   /\ (forall c, In c cs -> tally_not_passed t c = false)).
  { rewrite <- !filter_length_zero. lia. }
  rewrite Hz. clear Hz. unfold cs. split.
  - intros [Hu Hn] [cat g] Hin Hle. simpl in *.
    assert (Hc : In (check_of marks (cat, g))
                    (map (check_of marks) (active_guidelines t catalog))).
    { apply in_map. unfold active_guidelines. apply filter_In.
      split; [exact Hin|]. unfold active. simpl.
      apply negb_true_iff. now apply N.ltb_ge. }
    specialize (Hu _ Hc). specialize (Hn _ Hc).
    unfold is_unrated, tally_not_passed, check_of in Hu, Hn. simpl in Hu, Hn.
    destruct (first_match marks (Guideline.id g)) as [m|]; [|discriminate].
    exists m. split; [reflexivity|]. intros Hf. simpl in Hn. rewrite Hf in Hn.
    apply N.ltb_ge in Hn. now apply N.le_antisymm.
  - intros H. split; intros c Hc; apply in_map_iff in Hc;
      destruct Hc as ([cat g] & <- & Hcg);
      pose proof (active_needed t catalog _ Hcg) as Hle;
      unfold active_guidelines in Hcg; apply filter_In in Hcg;
      destruct Hcg as [Hin _];
      destruct (H (cat, g) Hin Hle) as (m & Hm & Hf); simpl in *;
      unfold is_unrated, tally_not_passed, check_of; simpl; rewrite Hm; simpl;
      [reflexivity|].
    destruct (QualityModeration.passed m); [reflexivity|].
    rewrite (Hf eq_refl). apply N.ltb_irrefl.
Qed.

Lemma passes_characterised_witness :
  exists r,
    eval (quality_moderation_status
            [GuidelineCategory.mk "general" [guideline_G]]
            [mark_for "G" false 5])
         (frozen (datetime_of_date 2023 9 1)) 0 = Ok r
    /\ Report.passes r = true.
Proof.
  destruct (passes_characterised
              [GuidelineCategory.mk "general" [guideline_G]]
              [mark_for "G" false 5] (datetime_of_date 2023 9 1) 0%nat)
    as (r & E & Hiff).
  exists r. split; [exact E|]. apply Hiff.
  intros cg [<-|[]] _. exists (mark_for "G" false 5).
  split; reflexivity.
Defined.

(** X7: with the same catalog and marks, no counter decreases as the
    evaluation instant moves forward, and an app that passes at a
    later instant passes at every earlier one. *)
Theorem counters_grow_with_time :
  forall catalog marks (t t' : datetime) k k',
    t <= t' ->
    exists r r',
      eval (quality_moderation_status catalog marks) (frozen t) k = Ok r
      /\ eval (quality_moderation_status catalog marks) (frozen t') k' = Ok r'
      /\ (Report.unrated r <= Report.unrated r')%nat
      /\ (Report.passed r <= Report.passed r')%nat
      /\ (Report.not_passed r <= Report.not_passed r')%nat
      /\ (Report.passes r' = true -> Report.passes r = true).
Proof.
  intros catalog marks t t' k k' Hle.
  destruct (last_updated_spec marks) as (lu & Elu & _).
  pose proof (status_frozen catalog marks t k lu Elu) as R. cbv zeta in R.
  pose proof (status_frozen catalog marks t' k' lu Elu) as R'. cbv zeta in R'.
  eexists _, _.
  split; [apply returns_eval, R|]. split; [apply returns_eval, R'|].
  simpl. unfold active_guidelines. rewrite !filter_map_filter, !length_map.
  assert (Hact : forall cg : string * Guideline.t,
             active t (snd cg) = true -> active t' (snd cg) = true).
  { intros cg. unfold active. rewrite !negb_true_iff, !N.ltb_ge. lia. }
  assert (Hu : (length (filter (fun x => active t (snd x)
                                        && is_unrated (check_of marks x))
                               (flatten catalog))
                <= length (filter (fun x => active t' (snd x)
                                            && is_unrated (check_of marks x))
                                  (flatten catalog)))%nat).
  { apply filter_length_mono. intros cg _ H. apply andb_true_iff in H.
    destruct H as [H1 H2]. now rewrite (Hact cg H1), H2. }
  assert (Hp : (length (filter (fun x => active t (snd x)
                                        && tally_passed t (check_of marks x))
                               (flatten catalog))
                <= length (filter (fun x => active t' (snd x)
                                            && tally_passed t' (check_of marks x))
                                  (flatten catalog)))%nat).
  { apply filter_length_mono. intros cg _ H. apply andb_true_iff in H.
    destruct H as [H1 H2]. rewrite (Hact cg H1). simpl.
    unfold tally_passed in *. destruct (Check.passed _) as [[|]|];
      try discriminate. apply N.ltb_lt in H2. apply N.ltb_lt. lia. }
  assert (Hn : (length (filter (fun x => active t (snd x)
                                        && tally_not_passed t (check_of marks x))
                               (flatten catalog))
                <= length (filter (fun x => active t' (snd x)
                                            && tally_not_passed t'
                                                 (check_of marks x))
                                  (flatten catalog)))%nat).
  { apply filter_length_mono. intros cg _ H. apply andb_true_iff in H.
    destruct H as [H1 H2]. rewrite (Hact cg H1). simpl.
    unfold tally_not_passed in *. destruct (Check.passed _) as [[|]|];
      try discriminate. apply N.ltb_lt in H2. apply N.ltb_lt. lia. }
  split; [exact Hu|]. split; [exact Hp|]. split; [exact Hn|].
  rewrite !Nat.eqb_eq. lia.
Qed.

Lemma counters_grow_with_time_witness :
  exists r r',
    eval (quality_moderation_status GUIDELINES [])
         (frozen (datetime_of_date 2023 9 15)) 0 = Ok r
    /\ eval (quality_moderation_status GUIDELINES [])
            (frozen new_year_2024) 0 = Ok r'
    /\ (Report.unrated r <= Report.unrated r')%nat.
Proof.
  destruct (counters_grow_with_time GUIDELINES []
              (datetime_of_date 2023 9 15) new_year_2024 0%nat 0%nat)
    as (r & r' & E & E' & Hu & _).
  - vm_compute. discriminate.
  - exists r, r'. split; [exact E|]. split; [exact E'|exact Hu].
Defined.

(** ** Categories *)

Lemma says_same want c c' : same_verdict c c' -> says want c = says want c'.
Proof. intros (_ & _ & Hp & _). unfold says. now rewrite Hp. Qed.

(** The tallies do not look at the category of a record. *)
Lemma tally_same (want : bool) clk cs cs' :
  Forall2 same_verdict cs cs' ->
  forall k, exists p p' k',
    comprehension (if want then passed_cond else not_passed_cond) cs clk k
    = Ok (p, k')
    /\ comprehension (if want then passed_cond else not_passed_cond) cs' clk k
       = Ok (p', k')
    /\ length p = length p'.
Proof.
  induction 1 as [|c c' cs cs' Hc _ IH]; intros k; simpl.
  - exists [], [], k. now repeat split.
  - unfold bind. rewrite !tally_cond_step, <- (says_same want c c' Hc).
    destruct Hc as (_ & Hn & _). rewrite <- Hn.
    destruct (IH (if says want c then S k else k)) as (p & p' & k' & -> & -> & Hl).
    eexists _, _, k'. split; [reflexivity|]. split; [reflexivity|].
    destruct (if says want c then _ else false); simpl; now rewrite Hl.
Qed.

Lemma active_at_same marks clk l1 : forall l2 k,
  map snd l1 = map snd l2 ->
  Forall2 same_verdict (map (check_of marks) (active_at clk k l1))
                       (map (check_of marks) (active_at clk k l2)).
Proof.
  induction l1 as [|[c1 g1] l1 IH]; intros [|[c2 g2] l2] k H; simpl in *;
    try discriminate; [constructor|].
  inversion H; subst g2.
  destruct (clk k <? Guideline.needed_to_pass_since g1); simpl.
  - now apply IH.
  - constructor; [now repeat split|now apply IH].
Qed.

Lemma unrated_same cs cs' :
  Forall2 same_verdict cs cs' ->
  length (filter is_unrated cs) = length (filter is_unrated cs').
Proof.
  induction 1 as [|c c' cs cs' (_ & _ & Hp & _) _ IH]; simpl; [reflexivity|].
  assert (E : is_unrated c = is_unrated c')
    by (unfold is_unrated; now rewrite Hp).
  rewrite E. destruct (is_unrated c'); simpl; now rewrite IH.
Qed.

(** X5: categories do not take part in the aggregation.  Two catalogs
    that list the same guidelines in the same order, grouped or named
    differently, give the same report over every clock, and leave the
    clock at the same position. *)
Theorem categories_do_not_affect_report :
  forall catalog catalog' marks clk k,
    map snd (flatten catalog) = map snd (flatten catalog') ->
    quality_moderation_status catalog marks clk k
    = quality_moderation_status catalog' marks clk k.
Proof.
  intros catalog catalog' marks clk k Hsame.
  unfold quality_moderation_status, bind.
  rewrite !collect_checks_general.
  assert (Hlen : length (flatten catalog) = length (flatten catalog')).
  { rewrite <- (length_map snd (flatten catalog)), Hsame. apply length_map. }
  rewrite <- Hlen.
  set (k1 := (k + length (flatten catalog))%nat).
  pose proof (active_at_same marks clk _ _ k Hsame) as HF.
  set (l := active_at clk k (flatten catalog)) in *.
  set (l' := active_at clk k (flatten catalog')) in *.
  destruct (tally_same true clk _ _ HF k1) as (p & p' & k2 & Ep & Ep' & Hp).
  destruct (tally_same false clk _ _ HF k2) as (np & np' & k3 & En & En' & Hn).
  destruct (last_updated_spec marks) as (lu & Elu & _).
  rewrite (summarise_from marks (extend marks _ l) clk k1 p k2 np k3 lu);
    [|exact Ep|exact En|exact Elu].
  rewrite (summarise_from marks (extend marks _ l') clk k1 p' k2 np' k3 lu);
    [|exact Ep'|exact En'|exact Elu].
  unfold report_of. simpl. now rewrite Hp, Hn, (unrated_same _ _ HF).
Qed.

Lemma categories_do_not_affect_report_witness :
  quality_moderation_status
    [GuidelineCategory.mk "general" [guideline_G; guideline_H]]
    [mark_for "G" true 5] (ticking new_year_2024) 0%nat
  = quality_moderation_status
      [GuidelineCategory.mk "first" [guideline_G];
       GuidelineCategory.mk "empty" [];
       GuidelineCategory.mk "second" [guideline_H]]
      [mark_for "G" true 5] (ticking new_year_2024) 0%nat.
Proof.
  apply categories_do_not_affect_report. reflexivity.
Defined.

(** ** The order of the marks *)

(** With one row per guideline, the lookup finds the mark wherever it
    stands in the list. *)
Lemma first_match_unique marks gid m :
  one_row_per_guideline marks ->
  In m marks -> QualityModeration.guideline_id m = gid ->
  first_match marks gid = Some m.
Proof.
  unfold one_row_per_guideline, first_match.
  induction marks as [|m0 ms IH]; simpl; intros Hnd Hin Hid; [contradiction|].
  inversion Hnd as [|? ? Hnotin Hnd']; subst.
  destruct (String.eqb_spec (QualityModeration.guideline_id m0)
                            (QualityModeration.guideline_id m)) as [E|N].
  - destruct Hin as [->|Hin]; [reflexivity|].
    exfalso. apply Hnotin. rewrite E. now apply in_map.
  - destruct Hin as [->|Hin]; [congruence|]. now apply IH.
Qed.

Lemma first_match_permutation marks marks' gid :
  Permutation marks marks' -> one_row_per_guideline marks ->
  first_match marks gid = first_match marks' gid.
Proof.
  intros HP Hone.
  assert (Hone' : one_row_per_guideline marks').
  { unfold one_row_per_guideline in *.
    eapply Permutation_NoDup; [|exact Hone]. now apply Permutation_map. }
  destruct (first_match marks gid) as [m|] eqn:E.
  - apply first_match_some in E. destruct E as [Hin Hid].
    symmetry. apply first_match_unique; [exact Hone'| |exact Hid].
    now apply (Permutation_in _ HP).
  - symmetry. apply first_match_none. apply has_verdict_false_iff.
    intros m Hin. apply first_match_none in E.
    rewrite has_verdict_false_iff in E. apply E.
    now apply (Permutation_in _ (Permutation_sym HP)).
Qed.

Lemma last_updated_permutation marks marks' :
  Permutation marks marks' -> last_updated marks = last_updated marks'.
Proof.
  intros HP.
  destruct (last_updated_spec marks) as (lu & E & Hub & Hmin & Hatt).
  destruct (last_updated_spec marks') as (lu' & E' & Hub' & Hmin' & Hatt').
  rewrite E, E'. f_equal.
  destruct marks as [|m0 ms].
  - apply Permutation_nil in HP. subst marks'.
    now rewrite Hmin, Hmin'.
  - assert (Hne' : marks' <> []).
    { intros ->. apply Permutation_sym, Permutation_nil in HP. discriminate. }
    destruct Hatt as (m & Hm & ->); [discriminate|].
    destruct (Hatt' Hne') as (m' & Hm' & ->).
    apply N.le_antisymm.
    + apply Hub'. now apply (Permutation_in _ HP).
    + apply Hub. now apply (Permutation_in _ (Permutation_sym HP)).
Qed.

(** X6: with at most one mark per guideline, the order in which the
    store returns the marks does not matter: over every clock the
    computation gives the same report for any reordering of them. *)
Theorem order_of_marks_does_not_matter :
  forall catalog marks marks' clk k,
    Permutation marks marks' ->
    one_row_per_guideline marks ->
    quality_moderation_status catalog marks clk k
    = quality_moderation_status catalog marks' clk k.
Proof.
  intros catalog marks marks' clk k HP Hone.
  unfold quality_moderation_status, bind.
  rewrite (collect_checks_lookup_ext catalog marks marks' clk k).
  - destruct (collect_checks catalog marks' clk k) as [[st k1]|e];
      [|reflexivity].
    unfold summarise, bind, lift.
    now rewrite (last_updated_permutation marks marks' HP).
  - intros cg _. now apply first_match_permutation.
Qed.

Lemma order_of_marks_does_not_matter_witness :
  quality_moderation_status GUIDELINES
    [mark_for "app-icon-contrast" true 5; mark_for "app-icon-detail" false 9]
    (ticking new_year_2024) 0%nat
  = quality_moderation_status GUIDELINES
      [mark_for "app-icon-detail" false 9; mark_for "app-icon-contrast" true 5]
      (ticking new_year_2024) 0%nat.
Proof.
  apply order_of_marks_does_not_matter.
  - apply perm_swap.
  - unfold one_row_per_guideline. simpl.
    constructor; [|constructor; [intros []|constructor]].
    intros [H|[]]. discriminate.
Defined.

(** * The status of all apps *)

(** The computation returns, and the clock does not go back. *)
Lemma status_returns_later catalog marks clk k :
  exists r k', quality_moderation_status catalog marks clk k = Ok (r, k')
               /\ (k <= k')%nat.
Proof.
  unfold quality_moderation_status, bind. rewrite collect_checks_general.
  set (st := extend marks _ _). set (k1 := (k + _)%nat).
  destruct (tally_reads true (checks st) clk k1) as (p & Ep).
  destruct (tally_reads false (checks st) clk
              (k1 + length (filter (says true) (checks st)))) as (np & Enp).
  destruct (last_updated_spec marks) as (lu & Elu & _).
  rewrite (summarise_from marks st clk _ _ _ _ _ lu Ep Enp Elu).
  eexists _, _. split; [reflexivity|]. unfold k1. lia.
Qed.

(** X8: the status of all apps never raises and has one entry per app
    id handed in, in the same order, duplicates included.  The report
    of an entry is the report of the per-app route for that id, started
    at some later clock position; over a single instant it is the
    report the per-app route gives at that instant. *)
Theorem all_apps_status_entrywise :
  forall db appids clk k,
    exists apps k',
      get_quality_moderation_status db appids clk k = Ok (apps, k')
      /\ map fst apps = appids
      /\ Forall (fun e => exists j, (k <= j)%nat
                  /\ eval (get_quality_moderation_status_for_appid db (fst e))
                          clk j = Ok (snd e)) apps
      /\ (forall t, clk = frozen t ->
            Forall (fun e => forall j,
                      eval (get_quality_moderation_status_for_appid db (fst e))
                           (frozen t) j = Ok (snd e)) apps).
Proof.
  intros db appids clk. unfold get_quality_moderation_status.
  induction appids as [|a appids IH]; intros k; simpl.
  - exists [], k. split; [reflexivity|]. split; [reflexivity|].
    split; [constructor|]. intros; constructor.
  - destruct (status_returns_later GUIDELINES (by_appid db a) clk k)
      as (r & k1 & E & Hk1).
    destruct (IH k1) as (apps & k2 & E2 & Hids & Hall & Hfrozen).
    exists ((a, r) :: apps), k2.
    split.
    { unfold bind at 1 2, get_quality_moderation_status_for_appid at 1.
      rewrite E. unfold ret at 1. unfold bind at 1. now rewrite E2. }
    split; [simpl; now rewrite Hids|]. split.
    + constructor.
      * exists k. split; [lia|]. simpl.
        unfold eval, get_quality_moderation_status_for_appid. now rewrite E.
      * eapply Forall_impl; [|exact Hall].
        intros e (j & Hj & He). exists j. split; [lia|exact He].
    + intros t ->. constructor; [|now apply Hfrozen].
      intros j. simpl. unfold get_quality_moderation_status_for_appid.
      destruct (last_updated_spec (by_appid db a)) as (lu & Elu & _).
      pose proof (status_frozen GUIDELINES (by_appid db a) t k lu Elu) as R1.
      pose proof (status_frozen GUIDELINES (by_appid db a) t j lu Elu) as R2.
      cbv zeta in R1, R2. rewrite (returns_eval _ _ _ _ R2).
      destruct R1 as [k' R1]. rewrite E in R1. congruence.
Qed.

Lemma all_apps_status_entrywise_witness :
  exists apps k',
    get_quality_moderation_status
      [mark_for "app-icon-contrast" true 5]
      ["org.gnome.Glade"; "org.example.Other"; "org.gnome.Glade"]
      (frozen new_year_2024) 0%nat = Ok (apps, k')
    /\ map fst apps = ["org.gnome.Glade"; "org.example.Other"; "org.gnome.Glade"].
Proof.
  destruct (all_apps_status_entrywise
              [mark_for "app-icon-contrast" true 5]
              ["org.gnome.Glade"; "org.example.Other"; "org.gnome.Glade"]
              (frozen new_year_2024) 0%nat) as (apps & k' & E & Hids & _).
  exists apps, k'. split; [exact E|exact Hids].
Defined.

(** * The editing view *)

Lemma dict_get_set_same {V} (d : list (string * V)) k v :
  dict_get (dict_set d k v) k = Some v.
Proof.
  induction d as [|[k' v'] d IH]; simpl.
  - now rewrite String.eqb_refl.
  - destruct (String.eqb k' k) eqn:E; simpl; rewrite E; [reflexivity|exact IH].
Qed.

Lemma dict_get_set_other {V} (d : list (string * V)) k v k0 :
  k <> k0 -> dict_get (dict_set d k v) k0 = dict_get d k0.
Proof.
  intros Hne. induction d as [|[k' v'] d IH]; simpl.
  - apply String.eqb_neq in Hne. now rewrite Hne.
  - destruct (String.eqb_spec k' k) as [->|N]; simpl.
    + apply String.eqb_neq in Hne. now rewrite Hne.
    + now rewrite IH.
Qed.

Lemma dict_set_keys {V} (d : list (string * V)) k v :
  map fst (dict_set d k v)
  = if existsb (String.eqb k) (map fst d) then map fst d
    else map fst d ++ [k].
Proof.
  induction d as [|[k' v'] d IH]; simpl; [reflexivity|].
  rewrite (String.eqb_sym k k').
  destruct (String.eqb k' k); simpl; [reflexivity|].
  rewrite IH. now destruct (existsb (String.eqb k) (map fst d)).
Qed.

Lemma dict_set_nodup {V} (d : list (string * V)) k v :
  NoDup (map fst d) -> NoDup (map fst (dict_set d k v)).
Proof.
  intros H. rewrite dict_set_keys.
  destruct (existsb (String.eqb k) (map fst d)) eqn:E; [exact H|].
  apply NoDup_app_remove_l with (l := []). simpl.
  apply Permutation_NoDup with (l := k :: map fst d).
  - apply Permutation_cons_append.
  - constructor; [|exact H]. intros Hin.
    assert (existsb (String.eqb k) (map fst d) = true); [|congruence].
    apply existsb_exists. exists k. split; [exact Hin|apply String.eqb_refl].
Qed.

Lemma dict_set_Forall {V} (Q : string * V -> Prop) (d : list (string * V)) k v :
  Forall Q d -> Q (k, v) -> Forall Q (dict_set d k v).
Proof.
  intros Hd Hkv. induction Hd as [|[k' v'] d Hk Hd IH]; simpl.
  - now repeat constructor.
  - destruct (String.eqb_spec k' k) as [->|N].
    + constructor; assumption.
    + constructor; [exact Hk|exact IH].
Qed.

Lemma first_match_app l1 l2 gid :
  first_match (l1 ++ l2) gid
  = match first_match l1 gid with
    | Some m => Some m
    | None => first_match l2 gid
    end.
Proof.
  unfold first_match. induction l1 as [|m l1 IH]; simpl; [reflexivity|].
  now destruct (String.eqb (QualityModeration.guideline_id m) gid).
Qed.

Lemma fold_dict_get items gid : forall d,
  dict_get (fold_left (fun d item =>
                         dict_set d (QualityModeration.guideline_id item) item)
                      items d) gid
  = match last_match items gid with
    | Some m => Some m
    | None => dict_get d gid
    end.
Proof.
  unfold last_match.
  induction items as [|m items IH]; intros d; simpl; [reflexivity|].
  rewrite IH, first_match_app.
  destruct (first_match (rev items) gid); [reflexivity|].
  unfold first_match. simpl.
  destruct (String.eqb_spec (QualityModeration.guideline_id m) gid) as [<-|N].
  - apply dict_get_set_same.
  - now apply dict_get_set_other.
Qed.

Lemma fold_dict_inv (P : list (string * QualityModeration.t) -> Prop) items :
  (forall d m, In m items -> P d ->
               P (dict_set d (QualityModeration.guideline_id m) m)) ->
  forall d, P d ->
    P (fold_left (fun d item =>
                    dict_set d (QualityModeration.guideline_id item) item)
                 items d).
Proof.
  induction items as [|m items IH]; intros Hstep d Hd; simpl; [exact Hd|].
  apply IH.
  - intros d' m' Hin. apply Hstep. now right.
  - apply Hstep; [now left|exact Hd].
Qed.

(** X9: in the editing view the marks are keyed by guideline id: the
    keys are pairwise distinct, every entry is a row of the app stored
    under its own guideline id, and a guideline id maps to the last row
    of the app with that id (to nothing when there is none). *)
Theorem editing_view_keeps_last_mark :
  forall db app_id,
    let view := get_quality_moderation_for_app db app_id in
    NoDup (map fst (ForApp.marks view))
    /\ Forall (fun e => fst e = QualityModeration.guideline_id (snd e)
                        /\ In (snd e) (by_appid db app_id))
              (ForApp.marks view)
    /\ (forall gid, dict_get (ForApp.marks view) gid
                    = last_match (by_appid db app_id) gid).
Proof.
  intros db app_id view. unfold view, get_quality_moderation_for_app; simpl.
  unfold marks_by_guideline. split; [|split].
  - apply (fold_dict_inv (fun d => NoDup (map fst d))); [|constructor].
    intros d m _. apply dict_set_nodup.
  - apply (fold_dict_inv
             (Forall (fun e => fst e = QualityModeration.guideline_id (snd e)
                               /\ In (snd e) (by_appid db app_id))));
      [|constructor].
    intros d m Hin Hd. apply dict_set_Forall; [exact Hd|]. now split.
  - intros gid. rewrite fold_dict_get.
    now destruct (last_match (by_appid db app_id) gid).
Qed.

(** The status takes the first of several marks for a guideline, the
    editing view shows the last. *)
Example editing_view_and_status_disagree :
  let rows := [mark_for "G" false 5; mark_for "G" true 9] in
  dict_get (ForApp.marks (get_quality_moderation_for_app rows "org.gnome.Glade"))
           "G" = Some (mark_for "G" true 9)
  /\ first_match (by_appid rows "org.gnome.Glade") "G"
     = Some (mark_for "G" false 5).
Proof. split; vm_compute; reflexivity. Qed.

Lemma dict_set_fresh {V} (d : list (string * V)) k v :
  ~ In k (map fst d) -> dict_set d k v = d ++ [(k, v)].
Proof.
  induction d as [|[k' v'] d IH]; simpl; intros H; [reflexivity|].
  destruct (String.eqb_spec k' k) as [E|N]; [exfalso; apply H; now left|].
  rewrite IH; [reflexivity|]. intros Hin. apply H. now right.
Qed.

Lemma fold_dict_fresh items : forall d,
  NoDup (map fst d ++ map QualityModeration.guideline_id items) ->
  fold_left (fun d item => dict_set d (QualityModeration.guideline_id item) item)
            items d
  = d ++ map (fun m => (QualityModeration.guideline_id m, m)) items.
Proof.
  induction items as [|m items IH]; intros d Hnd; simpl.
  - now rewrite app_nil_r.
  - rewrite dict_set_fresh.
    + rewrite IH; [now rewrite <- app_assoc|].
      rewrite map_app. simpl. rewrite <- app_assoc. exact Hnd.
    + intros Hin. apply NoDup_remove_2 in Hnd. apply Hnd.
      apply in_or_app. now left.
Qed.

Lemma dict_get_keyed ms gid :
  dict_get (map (fun m => (QualityModeration.guideline_id m, m)) ms) gid
  = first_match ms gid.
Proof.
  unfold first_match. induction ms as [|m ms IH]; simpl; [reflexivity|].
  now destruct (String.eqb (QualityModeration.guideline_id m) gid).
Qed.

(** X10: when the rows of the app have pairwise distinct guideline
    ids, the editing view lists them all, in the order of the rows,
    each under its guideline id, and looking a guideline up in it
    finds the very mark the status computation uses. *)
Theorem editing_view_agrees_with_status :
  forall db app_id,
    one_row_per_guideline (by_appid db app_id) ->
    let view := get_quality_moderation_for_app db app_id in
    ForApp.marks view
    = map (fun m => (QualityModeration.guideline_id m, m)) (by_appid db app_id)
    /\ (forall gid, dict_get (ForApp.marks view) gid
                    = first_match (by_appid db app_id) gid).
Proof.
  intros db app_id Hone view.
  assert (E : ForApp.marks view
              = map (fun m => (QualityModeration.guideline_id m, m))
                    (by_appid db app_id)).
  { unfold view, get_quality_moderation_for_app, marks_by_guideline; simpl.
    now rewrite fold_dict_fresh. }
  split; [exact E|]. intros gid. rewrite E. apply dict_get_keyed.
Qed.

Lemma editing_view_agrees_with_status_witness :
  dict_get (ForApp.marks
              (get_quality_moderation_for_app
                 [mark_for "G" false 5; mark_for "H" true 9] "org.gnome.Glade"))
           "H"
  = first_match (by_appid [mark_for "G" false 5; mark_for "H" true 9]
                          "org.gnome.Glade") "H".
Proof.
  apply (editing_view_agrees_with_status
           [mark_for "G" false 5; mark_for "H" true 9] "org.gnome.Glade").
  unfold one_row_per_guideline. simpl.
  constructor; [|constructor; [intros []|constructor]].
  intros [H|[]]. discriminate.
Defined.

(** * The moderator gate *)

(** X11: the gate lets a login through, unchanged, exactly when it has
    a user, the state says logged in and the user is a quality
    moderator.  Without a user or when not logged in it raises 401,
    whether or not the user is a moderator; it raises 403 exactly for a
    logged-in user who is not a moderator. *)
Theorem quality_moderator_only_decides :
  forall login,
    (forall l, quality_moderator_only login = inr l ->
               l = login
               /\ LoginStatus.logged_in login = true
               /\ exists u, LoginStatus.user login = Some u
                            /\ User.is_quality_moderator u = true)
    /\ (quality_moderator_only login
        = inl (HTTPException.mk 401 "not_logged_in")
        <-> LoginStatus.user login = None
            \/ LoginStatus.logged_in login = false)
    /\ (quality_moderator_only login
        = inl (HTTPException.mk 403 "not_quality_moderator")
        <-> LoginStatus.logged_in login = true
            /\ exists u, LoginStatus.user login = Some u
                         /\ User.is_quality_moderator u = false)
    /\ (forall e, quality_moderator_only login = inl e ->
                  e = HTTPException.mk 401 "not_logged_in"
                  \/ e = HTTPException.mk 403 "not_quality_moderator").
Proof.
  intros [[[uid qm]|] li]; unfold quality_moderator_only; simpl.
  - destruct li; simpl; [destruct qm; simpl|].
    + split; [|split; [|split]].
      * intros l H. inversion H; subst. repeat split. eexists. now split.
      * split; [discriminate|]. intros [H|H]; discriminate H.
      * split; [discriminate|]. intros (_ & u & Hu & Hq).
        inversion Hu; subst. discriminate Hq.
      * discriminate.
    + split; [|split; [|split]].
      * discriminate.
      * split; [discriminate|]. intros [H|H]; discriminate H.
      * split; [|reflexivity]. intros _. split; [reflexivity|].
        eexists. now split.
      * intros e H. inversion H. now right.
    + split; [|split; [|split]].
      * discriminate.
      * split; [|reflexivity]. intros _. now right.
      * split; [discriminate|]. intros [H _]. discriminate H.
      * intros e H. inversion H. now left.
  - split; [|split; [|split]].
    + discriminate.
    + split; [|reflexivity]. intros _. now left.
    + split; [discriminate|]. intros (_ & u & Hu & _). discriminate Hu.
    + intros e H. inversion H. now left.
Qed.

Lemma quality_moderator_only_decides_witness :
  quality_moderator_only (LoginStatus.mk (Some (User.mk 7 true)) false)
  = inl (HTTPException.mk 401 "not_logged_in").
Proof.
  apply (quality_moderator_only_decides
           (LoginStatus.mk (Some (User.mk 7 true)) false)).
  right. reflexivity.
Defined.

(** * The shipped catalog *)

Lemma shipped_activation_times :
  map (fun cg => Guideline.needed_to_pass_since (snd cg)) (flatten GUIDELINES)
  = repeat (datetime_of_date 2023 9 1) 14 ++ repeat (datetime_of_date 2023 9 30) 9.
Proof. reflexivity. Qed.

Lemma active_count t (l : list (string * Guideline.t)) :
  length (filter (fun cg => active t (snd cg)) l)
  = length (filter (fun d => negb (t <? d))
                   (map (fun cg => Guideline.needed_to_pass_since (snd cg)) l)).
Proof.
  induction l as [|cg l IH]; simpl; [reflexivity|].
  unfold active at 1.
  destruct (t <? Guideline.needed_to_pass_since (snd cg)); simpl; now rewrite IH.
Qed.

Lemma filter_repeat {A} (f : A -> bool) x n :
  filter f (repeat x n) = if f x then repeat x n else [].
Proof.
  induction n as [|n IH]; simpl; [now destruct (f x)|].
  rewrite IH. now destruct (f x).
Qed.

(** X12: the shipped catalog is enforced in two phases.  Over a single
    instant [t], for every table and app id: before 2023-09-01 the
    check list is empty and the app passes; from 2023-09-01 up to
    2023-09-30 (excluded) the check list has 14 records; from
    2023-09-30 on it has all 23; and strictly after 2023-09-30 the
    three counters add up to 23. *)
Theorem shipped_catalog_phases :
  forall db app_id (t : datetime) k,
    exists st r,
      eval (collect_checks GUIDELINES (by_appid db app_id)) (frozen t) k = Ok st
      /\ eval (get_quality_moderation_status_for_appid db app_id) (frozen t) k
         = Ok r
      /\ (t < datetime_of_date 2023 9 1 ->
          checks st = [] /\ Report.passes r = true)
      /\ (datetime_of_date 2023 9 1 <= t < datetime_of_date 2023 9 30 ->
          length (checks st) = 14%nat)
      /\ (datetime_of_date 2023 9 30 <= t -> length (checks st) = 23%nat)
      /\ (datetime_of_date 2023 9 30 < t ->
          (Report.unrated r + Report.passed r + Report.not_passed r = 23)%nat).
Proof.
  intros db app_id t k. set (marks := by_appid db app_id).
  destruct (last_updated_spec marks) as (lu & Elu & _).
  pose proof (collect_checks_frozen GUIDELINES marks t k) as C.
  pose proof (status_frozen GUIDELINES marks t k lu Elu) as R. cbv zeta in R.
  eexists _, _.
  split; [apply returns_eval, C|]. split; [apply returns_eval, R|].
  set (cs := map (check_of marks) (active_guidelines t GUIDELINES)).
  assert (Hd : datetime_of_date 2023 9 1 < datetime_of_date 2023 9 30)
    by reflexivity.
  assert (Hlen : length cs
                 = length (filter (fun d => negb (t <? d))
                            (repeat (datetime_of_date 2023 9 1) 14)
                          ++ filter (fun d => negb (t <? d))
                               (repeat (datetime_of_date 2023 9 30) 9))).
  { unfold cs, active_guidelines.
    now rewrite length_map, active_count, shipped_activation_times, filter_app. }
  rewrite !filter_repeat, length_app in Hlen.
  set (d1 := datetime_of_date 2023 9 1) in *.
  set (d2 := datetime_of_date 2023 9 30) in *.
  change (checks (extend marks {| checks := []; unrated := 0 |}
                         (active_guidelines t GUIDELINES))) with cs.
  destruct (N.ltb_spec t d1) as [H1|H1];
    destruct (N.ltb_spec t d2) as [H2|H2]; simpl in Hlen;
    (split; [|split; [|split]]); try (intros; lia).
  - intros _. assert (Hnil : cs = []) by now apply length_zero_iff_nil.
    split; [exact Hnil|]. simpl. fold cs. now rewrite Hnil.
  - intros Hlt.
    assert (Hact : Forall (fun c => Check.needed_to_pass_since c <= t) cs).
    { apply Forall_forall. intros c Hc. apply in_map_iff in Hc.
      destruct Hc as (cg & <- & Hcg). simpl.
      now apply (active_needed t GUIDELINES). }
    pose proof (four_way_partition t cs Hact) as Hsum.
    assert (Htied : length (filter (tied t) cs) = 0%nat).
    { apply filter_length_zero. intros c Hc. apply in_map_iff in Hc.
      destruct Hc as (cg & <- & Hcg). unfold tied, check_of. simpl.
      destruct (first_match marks (Guideline.id (snd cg))); [|reflexivity].
      simpl. apply N.eqb_neq.
      unfold active_guidelines in Hcg. apply filter_In in Hcg.
      destruct Hcg as [Hin _].
      assert (Hle : Guideline.needed_to_pass_since (snd cg) <= d2).
      { pose proof shipped_activation_times as Hs.
        assert (Hm : In (Guideline.needed_to_pass_since (snd cg))
                        (map (fun cg => Guideline.needed_to_pass_since (snd cg))
                             (flatten GUIDELINES)))
          by (apply in_map_iff; now exists cg).
        rewrite Hs in Hm. apply in_app_or in Hm.
        destruct Hm as [Hm|Hm]; apply repeat_spec in Hm; rewrite Hm;
          fold d1 d2; lia. }
      lia. }
    simpl. fold cs. lia.
Qed.

Lemma shipped_catalog_phases_witness :
  exists st,
    eval (collect_checks GUIDELINES (by_appid [] "org.gnome.Glade"))
         (frozen (datetime_of_date 2023 9 15)) 0 = Ok st
    /\ length (checks st) = 14%nat.
Proof.
  destruct (shipped_catalog_phases [] "org.gnome.Glade"
              (datetime_of_date 2023 9 15) 0%nat)
    as (st & r & E & _ & _ & H14 & _).
  exists st. split; [exact E|]. apply H14.
  split; [vm_compute; discriminate|vm_compute; reflexivity].
Defined.

(** * Writing verdicts *)

Lemma upsert_at_keys db a g p m t :
  let key := fun row => (QualityModeration.app_id row,
                         QualityModeration.guideline_id row) in
  map key (upsert_at db a g p m t) = map key db
  \/ (~ In (a, g) (map key db)
      /\ map key (upsert_at db a g p m t) = map key db ++ [(a, g)]).
Proof.
  intros key. subst key. induction db as [|row db IH]; simpl.
  - right. split; [intros []|reflexivity].
  - destruct (String.eqb_spec (QualityModeration.app_id row) a) as [Ea|Na];
      simpl.
    + destruct (String.eqb_spec (QualityModeration.guideline_id row) g)
        as [Eg|Ng]; simpl.
      * left. now rewrite Ea, Eg.
      * destruct IH as [IH|[Hn IH]]; [left; now rewrite IH|right].
        split; [|now rewrite IH]. intros [H|H]; [|contradiction].
        inversion H. contradiction.
    + destruct IH as [IH|[Hn IH]]; [left; now rewrite IH|right].
      split; [|now rewrite IH]. intros [H|H]; [|contradiction].
      inversion H. contradiction.
Qed.

Lemma upsert_at_keeps_invariant db a g p m t :
  one_row_per_pair db -> one_row_per_pair (upsert_at db a g p m t).
Proof.
  unfold one_row_per_pair. intros H.
  destruct (upsert_at_keys db a g p m t) as [E|[Hn E]]; rewrite E;
    [exact H|].
  eapply Permutation_NoDup; [apply Permutation_cons_append|].
  now constructor.
Qed.

Lemma one_row_per_pair_by_appid db a :
  one_row_per_pair db -> one_row_per_guideline (by_appid db a).
Proof.
  unfold one_row_per_pair, one_row_per_guideline, by_appid.
  induction db as [|row db IH]; simpl; intros H; [constructor|].
  inversion H as [|? ? Hnotin Hnd]; subst.
  destruct (String.eqb_spec (QualityModeration.app_id row) a) as [E|N];
    [|now apply IH].
  simpl. constructor; [|now apply IH].
  intros Hin. apply Hnotin. apply in_map_iff in Hin.
  destruct Hin as (row' & Hg & Hin'). apply filter_In in Hin'.
  destruct Hin' as [Hin' Ha]. apply String.eqb_eq in Ha.
  apply in_map_iff. exists row'. split; [|exact Hin']. congruence.
Qed.

Lemma by_appid_upsert_other db a g p m t b :
  a <> b -> by_appid (upsert_at db a g p m t) b = by_appid db b.
Proof.
  intros Hne. unfold by_appid.
  assert (Hab : String.eqb a b = false) by now apply String.eqb_neq.
  induction db as [|row db IH]; simpl.
  - now rewrite Hab.
  - destruct (String.eqb_spec (QualityModeration.app_id row) a) as [Ea|Na];
      simpl.
    + destruct (String.eqb (QualityModeration.guideline_id row) g); simpl.
      * now rewrite Ea, Hab.
      * now rewrite IH.
    + now rewrite IH.
Qed.

(** X14: with the store's upsert as the specification describes it,
    any sequence of upsert requests keeps at most one row per
    (app id, guideline id), so the marks the status and the editing
    view read for an app never hold two rows for one guideline; each
    request reads the clock once. *)
Theorem upserts_keep_one_row_per_pair :
  forall requests db clk k,
    one_row_per_pair db ->
    exists db',
      replay db requests clk k = Ok (db', (k + length requests)%nat)
      /\ one_row_per_pair db'
      /\ (forall a, one_row_per_guideline (by_appid db' a)).
Proof.
  induction requests as [|[[[a g] p] m] requests IH]; intros db clk k H; simpl.
  - exists db. rewrite Nat.add_0_r. split; [reflexivity|]. split; [exact H|].
    intros a. now apply one_row_per_pair_by_appid.
  - destruct (IH (upsert_at db a g p m (clk k)) clk (S k))
      as (db' & E & Hinv & Hall).
    { now apply upsert_at_keeps_invariant. }
    exists db'. rewrite Nat.add_succ_r. split; [exact E|]. now split.
Qed.

Lemma upserts_keep_one_row_per_pair_witness :
  exists db',
    replay [] [("org.gnome.Glade", "G", true, 7);
               ("org.gnome.Glade", "G", false, 8)]
           (ticking new_year_2024) 0%nat = Ok (db', 2%nat)
    /\ one_row_per_guideline (by_appid db' "org.gnome.Glade").
Proof.
  destruct (upserts_keep_one_row_per_pair
              [("org.gnome.Glade", "G", true, 7);
               ("org.gnome.Glade", "G", false, 8)]
              [] (ticking new_year_2024) 0%nat) as (db' & E & _ & Hall).
  - constructor.
  - exists db'. split; [exact E|apply Hall].
Defined.

(** X15: with the store's upsert as the specification describes it, a
    verdict written for one app leaves the rows of every other app as
    they were, and with them that app's status over every clock and
    its editing view. *)
Theorem upsert_leaves_other_apps_alone :
  forall db body a moderator b clk k,
    a <> b ->
    exists db',
      set_quality_moderation_for_app db body a moderator clk k = Ok (db', S k)
      /\ by_appid db' b = by_appid db b
      /\ (forall clk' k',
            get_quality_moderation_status_for_appid db' b clk' k'
            = get_quality_moderation_status_for_appid db b clk' k')
      /\ get_quality_moderation_for_app db' b
         = get_quality_moderation_for_app db b.
Proof.
  intros db body a moderator b clk k Hne.
  eexists. split; [reflexivity|].
  pose proof (by_appid_upsert_other db a
                (UpsertQualityModeration.guideline_id body)
                (UpsertQualityModeration.passed body) moderator (clk k) b Hne)
    as E.
  split; [exact E|]. split.
  - intros clk' k'. unfold get_quality_moderation_status_for_appid.
    now rewrite E.
  - unfold get_quality_moderation_for_app. now rewrite E.
Qed.

Lemma upsert_leaves_other_apps_alone_witness :
  exists db',
    set_quality_moderation_for_app
      [mark_for "G" true 5] (UpsertQualityModeration.mk "G" false)
      "org.example.Other" 8 (frozen new_year_2024) 0%nat = Ok (db', 1%nat)
    /\ by_appid db' "org.gnome.Glade" = [mark_for "G" true 5].
Proof.
  destruct (upsert_leaves_other_apps_alone
              [mark_for "G" true 5] (UpsertQualityModeration.mk "G" false)
              "org.example.Other" 8 "org.gnome.Glade"
              (frozen new_year_2024) 0%nat) as (db' & E & Hb & _).
  - discriminate.
  - exists db'. split; [exact E|]. rewrite Hb. reflexivity.
Defined.

(** * An app without verdicts *)

(** X13: for an app without any mark, over every clock, every record
    of the check list is unrated: [unrated] is the length of the check
    list, [passed] and [not_passed] are zero, [last-updated] is
    [datetime.min], and the app passes exactly when the check list is
    empty. *)
Theorem no_marks_all_unrated :
  forall catalog clk k,
    exists st r,
      eval (collect_checks catalog []) clk k = Ok st
      /\ eval (quality_moderation_status catalog []) clk k = Ok r
      /\ Report.unrated r = length (checks st)
      /\ Report.passed r = 0%nat
      /\ Report.not_passed r = 0%nat
      /\ Report.last_updated r = datetime_min
      /\ (Report.passes r = true <-> checks st = []).
Proof.
  intros catalog clk k.
  destruct (status_general catalog [] clk k)
    as (st & p & np & lu & C & R & [HF Hu] & _ & Hsum & Elu).
  assert (Hall : forall c, In c (checks st) -> is_unrated c = true).
  { intros c Hc. rewrite Forall_forall in HF. destruct (HF c Hc) as [Hp _].
    unfold is_unrated. now rewrite Hp. }
  assert (Hlen : unrated st = length (checks st)).
  { rewrite Hu. f_equal. clear - Hall.
    induction (checks st) as [|c cs IH]; simpl; [reflexivity|].
    rewrite (Hall c (or_introl eq_refl)). f_equal.
    apply IH. intros c' Hc'. apply Hall. now right. }
  exists st, (report_of st p np lu).
  split; [apply returns_eval, C|]. split; [apply returns_eval, R|].
  simpl. split; [exact Hlen|].
  assert (p = 0%nat /\ np = 0%nat) as [-> ->] by lia.
  split; [reflexivity|]. split; [reflexivity|]. split.
  - unfold last_updated in Elu. simpl in Elu. congruence.
  - rewrite Nat.eqb_eq, Nat.add_0_r, Hlen. apply length_zero_iff_nil.
Qed.
